(** * ShaderCanvas: size policy, animation clock, uniform registry, lifecycle

    A shallow embedding of the TypeScript sources of the ShaderCanvas
    component and of the hooks it exports:

    - [UseResizeObserver]  hooks/useResizeObserver.ts  ([calculateSize])
    - [UseAnimationLoop]   hooks/useAnimationLoop.ts   (clock and controls)
    - [UseShaderMaterial]  hooks/useShaderMaterial.ts  (uniform registry)
    - [ShaderCanvas]       the component itself (setup effect and controls)

    Conventions.  A JavaScript [number] is an exact rational ([Q]); NaN and
    the infinities are outside the model, so statements that divide assume a
    non-zero divisor.  A JavaScript object used as a dictionary is a [gmap]
    (own properties only).  A React ref is a field of a state record, and
    every function that writes refs takes the state and returns the new one.
    A call that may raise in JavaScript returns an [option]. *)

From Stdlib Require Import QArith Qminmax Lqa.
From stdpp Require Import gmap strings list.

Open Scope Q_scope.

(** ** JavaScript numbers and truthiness *)

Module Js.

(** [x] is falsy exactly when it is zero (NaN is not modelled). *)
Definition truthy (x : Q) : bool := negb (Qeq_bool x 0).

(** [x || d] on numbers. *)
Definition or_else (x d : Q) : Q := if truthy x then x else d.

(** [x > y] on numbers. *)
Definition gt (x y : Q) : bool := negb (Qle_bool x y).

(** [m && x > m] for an optional number [m]: [undefined] and [0] are falsy. *)
Definition and_gt (m : option Q) (x : Q) : bool :=
  match m with
  | Some m => truthy m && gt x m
  | None => false
  end.

(** [Object.is] on numbers. *)
Definition same_number (x y : Q) : bool := Qeq_bool x y.

End Js.

Infix "||?" := Js.or_else (at level 45, left associativity) : Q_scope.

(** ** types.ts *)

Inductive SizeMode :=
| Fixed (width height : Q)
| Fill
| Viewport
| Aspect (aspectRatio : Q) (maxWidth maxHeight : option Q).

Record Size := mkSize { width : Q; height : Q }.

(** What the DOM reports when a size is computed. *)
Record Dom := mkDom {
  clientWidth : Q;       (* container.clientWidth *)
  clientHeight : Q;      (* container.clientHeight *)
  innerWidth : Q;        (* window.innerWidth *)
  innerHeight : Q;       (* window.innerHeight *)
  devicePixelRatio : Q   (* window.devicePixelRatio *)
}.

(** ** hooks/useResizeObserver.ts *)

Module UseResizeObserver.

(** The [aspect] branch of [calculateSize], statement by statement. *)
Definition calculateSize_aspect (aspectRatio : Q) (maxWidth maxHeight : option Q)
    (dom : Dom) : Size :=
  let containerWidth := clientWidth dom ||? innerWidth dom in
  let containerHeight := clientHeight dom ||? innerHeight dom in
  let width0 := containerWidth in
  let height0 := width0 / aspectRatio in
  let '(width1, height1) :=
    if Js.gt height0 containerHeight
    then (containerHeight * aspectRatio, containerHeight)
    else (width0, height0) in
  let '(width2, height2) :=
    if Js.and_gt maxWidth width1
    then (default 0 maxWidth, default 0 maxWidth / aspectRatio)
    else (width1, height1) in
  let '(width3, height3) :=
    if Js.and_gt maxHeight height2
    then (default 0 maxHeight * aspectRatio, default 0 maxHeight)
    else (width2, height2) in
  mkSize width3 height3.

Definition calculateSize (sizeMode : SizeMode) (dom : Dom) : Size :=
  match sizeMode with
  | Fixed w h => mkSize w h
  | Viewport => mkSize (innerWidth dom) (innerHeight dom)
  | Aspect r mw mh => calculateSize_aspect r mw mh dom
  | Fill => mkSize (clientWidth dom ||? 300) (clientHeight dom ||? 150)
  end.

(** The computation as the specification words it: start from the
    container's width, derive the height, fall back to the container's
    height when that overflows, then clamp to [maxWidth] and to
    [maxHeight] where one is provided. *)
Definition clamp_gt (m : option Q) (x : Q) : bool :=
  match m with
  | Some m => Js.gt x m
  | None => false
  end.

Definition aspect_spec (ratio : Q) (maxWidth maxHeight : option Q)
    (containerW containerH : Q) : Size :=
  let w0 := containerW in
  let h0 := w0 / ratio in
  let '(w1, h1) :=
    if Js.gt h0 containerH then (containerH * ratio, containerH) else (w0, h0) in
  let '(w2, h2) :=
    if clamp_gt maxWidth w1
    then (default 0 maxWidth, default 0 maxWidth / ratio) else (w1, h1) in
  let '(w3, h3) :=
    if clamp_gt maxHeight h2
    then (default 0 maxHeight * ratio, default 0 maxHeight) else (w2, h2) in
  mkSize w3 h3.

End UseResizeObserver.

(** Supported uniform values ([UniformValue]).  Arrays, matrices, colours,
    textures and the longer vectors are opaque handles: the code only stores
    and returns them. *)
Inductive UniformValue :=
| UNumber (x : Q)
| UVector2 (x y : Q)
| UOpaque (handle : nat).

(** The built-in entries, shared by the hook and the component:
    [u_time], [u_resolution], [u_mouse] and [u_mouseNormalized] per flag,
    then every custom entry written over them ([for (const key in ...)]). *)
Definition buildUniforms (enableTime enableResolution enableMouse : bool)
    (customUniforms : option (gmap string UniformValue)) : gmap string UniformValue :=
  let u0 : gmap string UniformValue := ∅ in
  let u1 := if enableTime then <["u_time" := UNumber 0]> u0 else u0 in
  let u2 := if enableResolution then <["u_resolution" := UVector2 1 1]> u1 else u1 in
  let u3 := if enableMouse
            then <["u_mouseNormalized" := UVector2 0 0]> (<["u_mouse" := UVector2 0 0]> u2)
            else u2 in
  match customUniforms with
  | Some custom => custom ∪ u3
  | None => u3
  end.

(** ** hooks/useAnimationLoop.ts *)

Module UseAnimationLoop.

Inductive Event :=
| Render                              (* renderer.render(scene, camera) *)
| OnFrame (time deltaTime : Q)        (* onFrame?.(time, deltaTime) *)
| RequestFrame (id : nat)
| CancelFrame (id : nat).

Record Options := mkOptions {
  autoPlay : bool;
  initialTime : Q;
  playbackSpeed : Q;
  onFrame : bool          (* whether the caller passed a callback *)
}.

Record Hook := mkHook {
  rafIdRef : option nat;
  playbackSpeedRef : Q;
  timeRef : Q;
  lastTimestampRef : option Q;
  isPlayingRef : bool;
  isPlaying : bool;                   (* useState *)
  currentTime : Q;                    (* useState *)
  surfaceRefs : bool;                 (* rendererRef, sceneRef and cameraRef all set *)
  nextFrameId : nat;
  trace : list Event                  (* newest first *)
}.

Definition init (o : Options) (surface : bool) : Hook :=
  mkHook None (playbackSpeed o) (initialTime o) None (autoPlay o)
         (autoPlay o) (initialTime o) surface 0 [].

Definition emit (e : Event) (h : Hook) : Hook :=
  mkHook (rafIdRef h) (playbackSpeedRef h) (timeRef h) (lastTimestampRef h)
         (isPlayingRef h) (isPlaying h) (currentTime h) (surfaceRefs h)
         (nextFrameId h) (e :: trace h).

Definition render (h : Hook) : Hook :=
  if surfaceRefs h then emit Render h else h.

Definition requestAnimationFrame (h : Hook) : Hook :=
  let id := nextFrameId h in
  mkHook (Some id) (playbackSpeedRef h) (timeRef h) (lastTimestampRef h)
         (isPlayingRef h) (isPlaying h) (currentTime h) (surfaceRefs h)
         (S id) (RequestFrame id :: trace h).

(** [deltaTime] as [animate] computes it at [timestamp]. *)
Definition deltaTime_at (timestamp : Q) (h : Hook) : Q :=
  let last := default timestamp (lastTimestampRef h) in
  let deltaMs := timestamp - last in
  (deltaMs / 1000) * playbackSpeedRef h.

Definition animate (o : Options) (timestamp : Q) (h : Hook) : Hook :=
  if negb (isPlayingRef h) then h else
  let deltaTime := deltaTime_at timestamp h in
  let time := timeRef h + deltaTime in
  let h1 := mkHook (rafIdRef h) (playbackSpeedRef h) time (Some timestamp)
                   (isPlayingRef h) (isPlaying h) time (surfaceRefs h)
                   (nextFrameId h) (trace h) in
  let h2 := if onFrame o then emit (OnFrame time deltaTime) h1 else h1 in
  requestAnimationFrame (render h2).

Definition play (h : Hook) : Hook :=
  if isPlayingRef h then h else
  requestAnimationFrame
    (mkHook (rafIdRef h) (playbackSpeedRef h) (timeRef h) None
            true true (currentTime h) (surfaceRefs h)
            (nextFrameId h) (trace h)).

Definition pause (h : Hook) : Hook :=
  match rafIdRef h with
  | Some id =>
      mkHook None (playbackSpeedRef h) (timeRef h) (lastTimestampRef h)
             false false (currentTime h) (surfaceRefs h)
             (nextFrameId h) (CancelFrame id :: trace h)
  | None =>
      mkHook None (playbackSpeedRef h) (timeRef h) (lastTimestampRef h)
             false false (currentTime h) (surfaceRefs h)
             (nextFrameId h) (trace h)
  end.

Definition reset (o : Options) (h : Hook) : Hook :=
  render (mkHook (rafIdRef h) (playbackSpeedRef h) (initialTime o) None
                 (isPlayingRef h) (isPlaying h) (initialTime o) (surfaceRefs h)
                 (nextFrameId h) (trace h)).

Definition setTime (time : Q) (h : Hook) : Hook :=
  render (mkHook (rafIdRef h) (playbackSpeedRef h) time (lastTimestampRef h)
                 (isPlayingRef h) (isPlaying h) time (surfaceRefs h)
                 (nextFrameId h) (trace h)).

Definition setPlaybackSpeed (speed : Q) (h : Hook) : Hook :=
  mkHook (rafIdRef h) speed (timeRef h) (lastTimestampRef h)
         (isPlayingRef h) (isPlaying h) (currentTime h) (surfaceRefs h)
         (nextFrameId h) (trace h).

(** The effect that starts the loop once the scene is ready, and its
    cleanup. *)
Definition start (o : Options) (isReady : bool) (h : Hook) : Hook :=
  if negb isReady then h
  else if autoPlay o then play h else render h.

Definition stop (h : Hook) : Hook :=
  match rafIdRef h with
  | Some id =>
      mkHook None (playbackSpeedRef h) (timeRef h) (lastTimestampRef h)
             (isPlayingRef h) (isPlaying h) (currentTime h) (surfaceRefs h)
             (nextFrameId h) (CancelFrame id :: trace h)
  | None => h
  end.

(** The clock after each tick of a run of ticks (the browser calls
    [animate] once per frame), oldest first. *)
Fixpoint clocks (o : Options) (timestamps : list Q) (h : Hook) : list Q :=
  match timestamps with
  | [] => []
  | t :: rest => timeRef (animate o t h) :: clocks o rest (animate o t h)
  end.

End UseAnimationLoop.

(** ** hooks/useShaderMaterial.ts *)

Module UseShaderMaterial.

Record Material := mkMaterial {
  uniforms : gmap string UniformValue;
  vertexShader : string;
  fragmentShader : string
}.

Record Hook := mkHook {
  materialRef : option Material;
  uniformsRef : gmap string UniformValue
}.

(** The effect that builds the material (it runs when a mesh exists and
    [isReady] holds). *)
Definition createMaterial (meshReady : bool) (fragment vertex : string)
    (enableTime enableResolution enableMouse : bool)
    (customUniforms : option (gmap string UniformValue)) (h : Hook) : Hook :=
  if negb meshReady then h else
  let u := buildUniforms enableTime enableResolution enableMouse customUniforms in
  mkHook (Some (mkMaterial u vertex fragment)) u.

Definition updateUniform (name : string) (value : UniformValue) (h : Hook) : Hook :=
  match materialRef h with
  | Some m =>
      match uniforms m !! name with
      | Some _ =>
          (* [uniformsRef.current] is the very object [material.uniforms] *)
          let u := <[name := value]> (uniforms m) in
          mkHook (Some (mkMaterial u (vertexShader m) (fragmentShader m))) u
      | None => h
      end
  | None => h
  end.

Definition getUniform (name : string) (h : Hook) : option UniformValue :=
  match materialRef h with
  | Some m => uniforms m !! name
  | None => None
  end.

End UseShaderMaterial.

(** ** constants.ts *)

Definition DEFAULT_VERTEX_SHADER : string := "
varying vec2 vUv;

void main() {
  vUv = uv;
  gl_Position = projectionMatrix * modelViewMatrix * vec4(position, 1.0);
}
".

(** Fallback fragment shader (magenta = error indicator). *)
Definition FALLBACK_FRAGMENT_SHADER : string := "
varying vec2 vUv;

void main() {
  gl_FragColor = vec4(1.0, 0.0, 1.0, 1.0);
}
".

(** ** ShaderCanvas.tsx *)

Module ShaderCanvas.

Inductive PixelRatio := Device | Capped | Explicit (ratio : Q).

(** Identity of the object passed as [size]: [Object.is] compares the
    dependency by reference.  The default [{ mode: 'fill' }] is a new
    object at every render ([Fresh]). *)
Inductive ObjId := Caller (n : nat) | Fresh (n : nat).

(** The props after destructuring (defaults applied); [size] stays
    optional because of the identity of its default.  Callbacks are opaque:
    a callback is the name under which its calls are traced. *)
Record Props := mkProps {
  fragmentShader : string;
  vertexShader : string;
  customUniforms : option (gmap string UniformValue);
  size : option (nat * SizeMode);
  pixelRatio : PixelRatio;
  autoPlay : bool;
  initialTime : Q;
  playbackSpeed : Q;
  enableTimeUniform : bool;
  enableResolutionUniform : bool;
  enableMouseUniform : bool;
  transparent : bool;
  antialias : bool;
  onFrame : option nat;
  onResize : option nat;
  onError : option nat
}.

(** Props with only [fragmentShader] given. *)
Definition defaultProps (fragment : string) : Props :=
  mkProps fragment DEFAULT_VERTEX_SHADER None None Capped true 0 1
          true true true false true None None None.

(** What a draw call puts into the drawing buffer: fixed by the program,
    the uniform values and the render-target size. *)
Record Frame := mkFrame {
  fr_vertexShader : string;
  fr_fragmentShader : string;
  fr_uniforms : gmap string UniformValue;
  fr_size : Size
}.

(** The objects one run of the setup effect creates: renderer (with its
    canvas), scene, camera, geometry, material and mesh.  They are created
    together and disposed together, and are named by the run.  The canvas
    keeps what the last draw call left in it ([preserveDrawingBuffer]);
    what [setSize] does to the buffer is not modelled. *)
Record Surface := mkSurface {
  sf_antialias : bool;
  sf_alpha : bool;
  sf_pixelRatio : Q;
  sf_size : Size;                               (* renderer.setSize *)
  sf_canvas : option Frame;                     (* preserveDrawingBuffer *)
  sf_uniforms : gmap string UniformValue;       (* material.uniforms *)
  sf_vertexShader : string;
  sf_fragmentShader : string;
  sf_attached : bool;                           (* canvas is in the container *)
  sf_disposed : bool
}.

(** The variables an effect run's closures capture. *)
Record Run := mkRun {
  run_surface : nat;
  run_size : SizeMode;
  run_pixelRatio : Q;
  run_enableMouse : bool;
  run_onFrame : option nat;
  run_onResize : option nat
}.

Inductive Callback :=
| AnimateEffect (r : Run)               (* [animate] of the setup effect *)
| AnimatePlay (onFrame : option nat).   (* [animate] created by [play] *)

Inductive Listener := MouseMove (r : Run) | Resize (r : Run).

(** What can be observed of a component: objects created and disposed,
    draw calls, and calls of the callbacks the props declare. *)
Inductive Event :=
| Created (g : nat)
| Disposed (g : nat)
| Rendered (g : nat) (f : Frame)
| OnFrame (cb : nat) (time deltaTime : Q)
| OnResize (cb : nat) (w h : Q)
| OnError (cb : nat).

Record Deps := mkDeps {
  d_fragmentShader : string;
  d_vertexShader : string;
  d_transparent : bool;
  d_antialias : bool;
  d_actualPixelRatio : Q;
  d_size : ObjId;
  d_enableTimeUniform : bool;
  d_enableResolutionUniform : bool;
  d_enableMouseUniform : bool;
  d_autoPlay : bool
}.

Record World := mkWorld {
  (* refs *)
  containerRef : bool;
  rendererRef : option nat;
  sceneRef : option nat;
  cameraRef : option nat;
  materialRef : option nat;
  meshRef : option nat;
  rafIdRef : option nat;
  timeRef : Q;
  isPlayingRef : bool;
  lastTimestampRef : option Q;
  playbackSpeedRef : Q;
  mouseRef : Q * Q;
  mouseNormalizedRef : Q * Q;
  sizeRef : Size;
  (* objects and browser *)
  surfaces : gmap nat Surface;
  pendingFrames : list (nat * Callback);
  listeners : list Listener;
  nextId : nat;
  (* React: dependencies and cleanup of the last effect run *)
  pixelRatioMemo : option (PixelRatio * Q);     (* useMemo(..., [pixelRatio]) *)
  lastDeps : option Deps;
  cleanupFn : option Run;
  trace : list Event                            (* newest first *)
}.

(** Ref and field assignments. *)


Definition set_rafIdRef v (w : World) : World :=
  mkWorld (containerRef w) (rendererRef w) (sceneRef w) (cameraRef w)
         (materialRef w) (meshRef w) v (timeRef w) (isPlayingRef w)
         (lastTimestampRef w) (playbackSpeedRef w) (mouseRef w)
         (mouseNormalizedRef w) (sizeRef w) (surfaces w) (pendingFrames w)
         (listeners w) (nextId w) (pixelRatioMemo w) (lastDeps w)
         (cleanupFn w) (trace w).

Definition set_timeRef v (w : World) : World :=
  mkWorld (containerRef w) (rendererRef w) (sceneRef w) (cameraRef w)
         (materialRef w) (meshRef w) (rafIdRef w) v (isPlayingRef w)
         (lastTimestampRef w) (playbackSpeedRef w) (mouseRef w)
         (mouseNormalizedRef w) (sizeRef w) (surfaces w) (pendingFrames w)
         (listeners w) (nextId w) (pixelRatioMemo w) (lastDeps w)
         (cleanupFn w) (trace w).

Definition set_isPlayingRef v (w : World) : World :=
  mkWorld (containerRef w) (rendererRef w) (sceneRef w) (cameraRef w)
         (materialRef w) (meshRef w) (rafIdRef w) (timeRef w) v
         (lastTimestampRef w) (playbackSpeedRef w) (mouseRef w)
         (mouseNormalizedRef w) (sizeRef w) (surfaces w) (pendingFrames w)
         (listeners w) (nextId w) (pixelRatioMemo w) (lastDeps w)
         (cleanupFn w) (trace w).

Definition set_lastTimestampRef v (w : World) : World :=
  mkWorld (containerRef w) (rendererRef w) (sceneRef w) (cameraRef w)
         (materialRef w) (meshRef w) (rafIdRef w) (timeRef w)
         (isPlayingRef w) v (playbackSpeedRef w) (mouseRef w)
         (mouseNormalizedRef w) (sizeRef w) (surfaces w) (pendingFrames w)
         (listeners w) (nextId w) (pixelRatioMemo w) (lastDeps w)
         (cleanupFn w) (trace w).

Definition set_playbackSpeedRef v (w : World) : World :=
  mkWorld (containerRef w) (rendererRef w) (sceneRef w) (cameraRef w)
         (materialRef w) (meshRef w) (rafIdRef w) (timeRef w)
         (isPlayingRef w) (lastTimestampRef w) v (mouseRef w)
         (mouseNormalizedRef w) (sizeRef w) (surfaces w) (pendingFrames w)
         (listeners w) (nextId w) (pixelRatioMemo w) (lastDeps w)
         (cleanupFn w) (trace w).

Definition set_mouseRef v (w : World) : World :=
  mkWorld (containerRef w) (rendererRef w) (sceneRef w) (cameraRef w)
         (materialRef w) (meshRef w) (rafIdRef w) (timeRef w)
         (isPlayingRef w) (lastTimestampRef w) (playbackSpeedRef w) v
         (mouseNormalizedRef w) (sizeRef w) (surfaces w) (pendingFrames w)
         (listeners w) (nextId w) (pixelRatioMemo w) (lastDeps w)
         (cleanupFn w) (trace w).

Definition set_mouseNormalizedRef v (w : World) : World :=
  mkWorld (containerRef w) (rendererRef w) (sceneRef w) (cameraRef w)
         (materialRef w) (meshRef w) (rafIdRef w) (timeRef w)
         (isPlayingRef w) (lastTimestampRef w) (playbackSpeedRef w)
         (mouseRef w) v (sizeRef w) (surfaces w) (pendingFrames w)
         (listeners w) (nextId w) (pixelRatioMemo w) (lastDeps w)
         (cleanupFn w) (trace w).

Definition set_sizeRef v (w : World) : World :=
  mkWorld (containerRef w) (rendererRef w) (sceneRef w) (cameraRef w)
         (materialRef w) (meshRef w) (rafIdRef w) (timeRef w)
         (isPlayingRef w) (lastTimestampRef w) (playbackSpeedRef w)
         (mouseRef w) (mouseNormalizedRef w) v (surfaces w)
         (pendingFrames w) (listeners w) (nextId w) (pixelRatioMemo w)
         (lastDeps w) (cleanupFn w) (trace w).

Definition set_surfaces v (w : World) : World :=
  mkWorld (containerRef w) (rendererRef w) (sceneRef w) (cameraRef w)
         (materialRef w) (meshRef w) (rafIdRef w) (timeRef w)
         (isPlayingRef w) (lastTimestampRef w) (playbackSpeedRef w)
         (mouseRef w) (mouseNormalizedRef w) (sizeRef w) v (pendingFrames w)
         (listeners w) (nextId w) (pixelRatioMemo w) (lastDeps w)
         (cleanupFn w) (trace w).

Definition set_pendingFrames v (w : World) : World :=
  mkWorld (containerRef w) (rendererRef w) (sceneRef w) (cameraRef w)
         (materialRef w) (meshRef w) (rafIdRef w) (timeRef w)
         (isPlayingRef w) (lastTimestampRef w) (playbackSpeedRef w)
         (mouseRef w) (mouseNormalizedRef w) (sizeRef w) (surfaces w) v
         (listeners w) (nextId w) (pixelRatioMemo w) (lastDeps w)
         (cleanupFn w) (trace w).

Definition set_listeners v (w : World) : World :=
  mkWorld (containerRef w) (rendererRef w) (sceneRef w) (cameraRef w)
         (materialRef w) (meshRef w) (rafIdRef w) (timeRef w)
         (isPlayingRef w) (lastTimestampRef w) (playbackSpeedRef w)
         (mouseRef w) (mouseNormalizedRef w) (sizeRef w) (surfaces w)
         (pendingFrames w) v (nextId w) (pixelRatioMemo w) (lastDeps w)
         (cleanupFn w) (trace w).

Definition set_nextId v (w : World) : World :=
  mkWorld (containerRef w) (rendererRef w) (sceneRef w) (cameraRef w)
         (materialRef w) (meshRef w) (rafIdRef w) (timeRef w)
         (isPlayingRef w) (lastTimestampRef w) (playbackSpeedRef w)
         (mouseRef w) (mouseNormalizedRef w) (sizeRef w) (surfaces w)
         (pendingFrames w) (listeners w) v (pixelRatioMemo w) (lastDeps w)
         (cleanupFn w) (trace w).

Definition set_pixelRatioMemo v (w : World) : World :=
  mkWorld (containerRef w) (rendererRef w) (sceneRef w) (cameraRef w)
         (materialRef w) (meshRef w) (rafIdRef w) (timeRef w)
         (isPlayingRef w) (lastTimestampRef w) (playbackSpeedRef w)
         (mouseRef w) (mouseNormalizedRef w) (sizeRef w) (surfaces w)
         (pendingFrames w) (listeners w) (nextId w) v (lastDeps w)
         (cleanupFn w) (trace w).

Definition set_lastDeps v (w : World) : World :=
  mkWorld (containerRef w) (rendererRef w) (sceneRef w) (cameraRef w)
         (materialRef w) (meshRef w) (rafIdRef w) (timeRef w)
         (isPlayingRef w) (lastTimestampRef w) (playbackSpeedRef w)
         (mouseRef w) (mouseNormalizedRef w) (sizeRef w) (surfaces w)
         (pendingFrames w) (listeners w) (nextId w) (pixelRatioMemo w) v
         (cleanupFn w) (trace w).

Definition set_cleanupFn v (w : World) : World :=
  mkWorld (containerRef w) (rendererRef w) (sceneRef w) (cameraRef w)
         (materialRef w) (meshRef w) (rafIdRef w) (timeRef w)
         (isPlayingRef w) (lastTimestampRef w) (playbackSpeedRef w)
         (mouseRef w) (mouseNormalizedRef w) (sizeRef w) (surfaces w)
         (pendingFrames w) (listeners w) (nextId w) (pixelRatioMemo w)
         (lastDeps w) v (trace w).

Definition set_trace v (w : World) : World :=
  mkWorld (containerRef w) (rendererRef w) (sceneRef w) (cameraRef w)
         (materialRef w) (meshRef w) (rafIdRef w) (timeRef w)
         (isPlayingRef w) (lastTimestampRef w) (playbackSpeedRef w)
         (mouseRef w) (mouseNormalizedRef w) (sizeRef w) (surfaces w)
         (pendingFrames w) (listeners w) (nextId w) (pixelRatioMemo w)
         (lastDeps w) (cleanupFn w) v.

(** [rendererRef], [sceneRef], [cameraRef], [materialRef] and [meshRef]
    are always assigned together. *)
Definition set_objectRefs (v : option nat) (w : World) : World :=
  mkWorld (containerRef w) v v v v v (rafIdRef w) (timeRef w) (isPlayingRef w)
         (lastTimestampRef w) (playbackSpeedRef w) (mouseRef w)
         (mouseNormalizedRef w) (sizeRef w) (surfaces w) (pendingFrames w)
         (listeners w) (nextId w) (pixelRatioMemo w) (lastDeps w) (cleanupFn w)
         (trace w).

Definition emit (e : Event) (w : World) : World := set_trace (e :: trace w) w.

(** [cb?.(...)]: a call is traced when the callback was provided. *)
Definition call (cb : option nat) (e : nat -> Event) (w : World) : World :=
  match cb with
  | Some c => emit (e c) w
  | None => w
  end.

Definition sf_set_size (v : Size) (sf : Surface) : Surface :=
  mkSurface (sf_antialias sf) (sf_alpha sf) (sf_pixelRatio sf) v (sf_canvas sf)
            (sf_uniforms sf) (sf_vertexShader sf) (sf_fragmentShader sf)
            (sf_attached sf) (sf_disposed sf).

Definition sf_set_canvas (v : option Frame) (sf : Surface) : Surface :=
  mkSurface (sf_antialias sf) (sf_alpha sf) (sf_pixelRatio sf) (sf_size sf) v
            (sf_uniforms sf) (sf_vertexShader sf) (sf_fragmentShader sf)
            (sf_attached sf) (sf_disposed sf).

Definition sf_set_uniforms (v : gmap string UniformValue) (sf : Surface) : Surface :=
  mkSurface (sf_antialias sf) (sf_alpha sf) (sf_pixelRatio sf) (sf_size sf)
            (sf_canvas sf) v (sf_vertexShader sf) (sf_fragmentShader sf)
            (sf_attached sf) (sf_disposed sf).

(** [geometry.dispose(); material.dispose(); renderer.dispose()] and the
    removal of the canvas from the container. *)
Definition sf_dispose (sf : Surface) : Surface :=
  mkSurface (sf_antialias sf) (sf_alpha sf) (sf_pixelRatio sf) (sf_size sf)
            (sf_canvas sf) (sf_uniforms sf) (sf_vertexShader sf)
            (sf_fragmentShader sf) false true.

(** *** Browser primitives *)

(** [requestAnimationFrame(cb)]: the new id and the world with [cb] pending. *)
Definition requestAnimationFrame (cb : Callback) (w : World) : nat * World :=
  let id := nextId w in
  (id, set_nextId (S id) (set_pendingFrames ((id, cb) :: pendingFrames w) w)).

Definition cancelAnimationFrame (id : nat) (w : World) : World :=
  set_pendingFrames (filter (fun p => p.1 ≠ id) (pendingFrames w)) w.

(** [rafIdRef.current = requestAnimationFrame(cb)]. *)
Definition schedule (cb : Callback) (w : World) : World :=
  let '(id, w') := requestAnimationFrame cb w in set_rafIdRef (Some id) w'.

(** [renderer.render(scene, camera)]: the canvas of renderer [rd] receives
    the picture of the material in scene [sc]. *)
Definition render (rd sc : nat) (w : World) : World :=
  match surfaces w !! rd, surfaces w !! sc with
  | Some target, Some drawn =>
      let f := mkFrame (sf_vertexShader drawn) (sf_fragmentShader drawn)
                       (sf_uniforms drawn) (sf_size target) in
      emit (Rendered rd f)
           (set_surfaces (<[rd := sf_set_canvas (Some f) target]> (surfaces w)) w)
  | _, _ => w
  end.

(** [if (u[name]) u[name].value = v]. *)
Definition assign (name : string) (v : UniformValue)
    (u : gmap string UniformValue) : gmap string UniformValue :=
  match u !! name with
  | Some _ => <[name := v]> u
  | None => u
  end.

(** [if (u[name]) u[name].value.set(x, y)] (or [.copy(v)]).  The target is
    a [Vector2]; on another kind of value the call leaves the model (a
    number has no such method and the call raises). *)
Definition assign_vec2 (name : string) (v : Q * Q)
    (u : gmap string UniformValue) : option (gmap string UniformValue) :=
  match u !! name with
  | None => Some u
  | Some (UVector2 _ _) => Some (<[name := UVector2 v.1 v.2]> u)
  | Some _ => None
  end.

(** *** The setup effect *)

Definition actualPixelRatio (pr : PixelRatio) (dom : Dom) : Q :=
  match pr with
  | Device => devicePixelRatio dom
  | Capped => Qmin (devicePixelRatio dom) 2
  | Explicit r => r
  end.

(** The size [updateSize] chooses: [aspect] falls in the last branch. *)
Definition targetSize (mode : SizeMode) (dom : Dom) : Size :=
  match mode with
  | Viewport => mkSize (innerWidth dom) (innerHeight dom)
  | Fixed w h => mkSize w h
  | _ => mkSize (clientWidth dom ||? 300) (clientHeight dom ||? 150)
  end.

Definition updateSize (r : Run) (dom : Dom) (w : World) : option World :=
  let sz := targetSize (run_size r) dom in
  let device := mkSize (width sz * run_pixelRatio r) (height sz * run_pixelRatio r) in
  sf ← surfaces w !! run_surface r;
  u ← assign_vec2 "u_resolution" (width device, height device) (sf_uniforms sf);
  let sf' := sf_set_uniforms u (sf_set_size sz sf) in
  Some (call (run_onResize r) (fun cb => OnResize cb (width sz) (height sz))
          (set_sizeRef device
             (set_surfaces (<[run_surface r := sf']> (surfaces w)) w))).

(** [deltaTime] as either [animate] computes it at [timestamp]. *)
Definition deltaTime_at (timestamp : Q) (w : World) : Q :=
  let last := default timestamp (lastTimestampRef w) in
  let deltaMs := timestamp - last in
  (deltaMs / 1000) * playbackSpeedRef w.

(** [animate] of the setup effect; it works on the objects of its run. *)
Definition animate_effect (r : Run) (timestamp : Q) (w : World) : option World :=
  if negb (isPlayingRef w) then Some w else
  let deltaTime := deltaTime_at timestamp w in
  let time := timeRef w + deltaTime in
  let w1 := set_timeRef time (set_lastTimestampRef (Some timestamp) w) in
  sf ← surfaces w1 !! run_surface r;
  let u1 := assign "u_time" (UNumber time) (sf_uniforms sf) in
  u2 ← assign_vec2 "u_mouse" (mouseRef w1) u1;
  u3 ← assign_vec2 "u_mouseNormalized" (mouseNormalizedRef w1) u2;
  let w2 := set_surfaces (<[run_surface r := sf_set_uniforms u3 sf]> (surfaces w1)) w1 in
  let w3 := call (run_onFrame r) (fun cb => OnFrame cb time deltaTime) w2 in
  Some (schedule (AnimateEffect r) (render (run_surface r) (run_surface r) w3)).

(** [animate] created by [play]; it reads the refs. *)
Definition animate_play (onFrame : option nat) (timestamp : Q) (w : World) : World :=
  if negb (isPlayingRef w) then w else
  match materialRef w, rendererRef w, sceneRef w, cameraRef w with
  | Some m, Some rd, Some sc, Some _ =>
      let deltaTime := deltaTime_at timestamp w in
      let time := timeRef w + deltaTime in
      let w1 := set_timeRef time (set_lastTimestampRef (Some timestamp) w) in
      let w2 := match surfaces w1 !! m with
                | Some sf =>
                    let u := assign "u_time" (UNumber time) (sf_uniforms sf) in
                    set_surfaces (<[m := sf_set_uniforms u sf]> (surfaces w1)) w1
                | None => w1
                end in
      let w3 := call onFrame (fun cb => OnFrame cb time deltaTime) w2 in
      schedule (AnimatePlay onFrame) (render rd sc w3)
  | _, _, _, _ => w
  end.

Definition run_callback (cb : Callback) (timestamp : Q) (w : World) : option World :=
  match cb with
  | AnimateEffect r => animate_effect r timestamp w
  | AnimatePlay onFrame => Some (animate_play onFrame timestamp w)
  end.

Definition cleanup (r : Run) (w : World) : World :=
  let w1 := match rafIdRef w with
            | Some id => cancelAnimationFrame id w
            | None => w
            end in
  let keep (l : Listener) : bool :=
    match l with
    | MouseMove r' => negb (run_enableMouse r && Nat.eqb (run_surface r') (run_surface r))
    | Resize r' => negb (Nat.eqb (run_surface r') (run_surface r))
    end in
  let w2 := set_listeners (List.filter keep (listeners w1)) w1 in
  let w3 := match surfaces w2 !! run_surface r with
            | Some sf =>
                emit (Disposed (run_surface r))
                     (set_surfaces (<[run_surface r := sf_dispose sf]> (surfaces w2)) w2)
            | None => w2
            end in
  set_objectRefs None w3.

(** The body of the setup effect, for the props of the current render. *)
Definition setup (p : Props) (ratio : Q) (mode : SizeMode) (dom : Dom)
    (w : World) : option World :=
  if negb (containerRef w) then Some (set_cleanupFn None w) else
  let g := nextId w in
  let uniforms := buildUniforms (enableTimeUniform p) (enableResolutionUniform p)
                                (enableMouseUniform p) (customUniforms p) in
  let sf := mkSurface (antialias p) (transparent p) ratio (mkSize 300 150) None
                      uniforms (vertexShader p) (fragmentShader p) true false in
  let r := mkRun g mode ratio (enableMouseUniform p) (onFrame p) (onResize p) in
  let w1 := emit (Created g)
              (set_objectRefs (Some g)
                 (set_nextId (S g) (set_surfaces (<[g := sf]> (surfaces w)) w))) in
  w2 ← updateSize r dom w1;
  let w3 := if autoPlay p
            then schedule (AnimateEffect r) (set_isPlayingRef true w2)
            else render g g w2 in
  let added := (if enableMouseUniform p then [MouseMove r] else []) ++ [Resize r] in
  Some (set_cleanupFn (Some r) (set_listeners (listeners w3 ++ added) w3)).

(** *** Listeners *)

Record Rect := mkRect { left : Q; top : Q; rect_width : Q; rect_height : Q }.

Definition handleMouseMove (clientX clientY : Q) (rect : Rect) (w : World) : World :=
  let x := clientX - left rect in
  let y := clientY - top rect in
  set_mouseNormalizedRef (x / rect_width rect, 1 - y / rect_height rect)
    (set_mouseRef (x, rect_height rect - y) w).

Definition handleResize (r : Run) (dom : Dom) (w : World) : option World :=
  updateSize r dom w.

(** *** Control functions *)

Definition play (onFrame : option nat) (w : World) : World :=
  if isPlayingRef w then w else
  schedule (AnimatePlay onFrame)
    (set_lastTimestampRef None (set_isPlayingRef true w)).

Definition pause (w : World) : World :=
  let w1 := set_isPlayingRef false w in
  match rafIdRef w1 with
  | Some id => set_rafIdRef None (cancelAnimationFrame id w1)
  | None => w1
  end.

(** [material?.uniforms.u_time] and the like: the uniforms of the material
    in [materialRef], when there is one. *)
Definition material_uniforms (w : World) : option (gmap string UniformValue) :=
  g ← materialRef w; sf ← surfaces w !! g; Some (sf_uniforms sf).

(** [if (material?.uniforms[name]) material.uniforms[name].value = v]. *)
Definition assign_material (name : string) (v : UniformValue) (w : World) : World :=
  match materialRef w with
  | Some g =>
      match surfaces w !! g with
      | Some sf =>
          match sf_uniforms sf !! name with
          | Some _ =>
              set_surfaces
                (<[g := sf_set_uniforms (<[name := v]> (sf_uniforms sf)) sf]> (surfaces w)) w
          | None => w
          end
      | None => w
      end
  | None => w
  end.

Definition reset (initialTime : Q) (w : World) : World :=
  assign_material "u_time" (UNumber initialTime)
    (set_lastTimestampRef None (set_timeRef initialTime w)).

Definition setTime (time : Q) (w : World) : World :=
  assign_material "u_time" (UNumber time) (set_timeRef time w).

Definition setPlaybackSpeed (speed : Q) (w : World) : World :=
  set_playbackSpeedRef speed w.

Definition updateUniform (name : string) (value : UniformValue) (w : World) : World :=
  assign_material name value w.

Definition getUniform (name : string) (w : World) : option UniformValue :=
  u ← material_uniforms w; u !! name.

(** [rendererRef.current?.domElement.toDataURL('image/png') ?? ''].  The
    encoder is the browser's; it takes the content of the drawing buffer
    (nothing drawn yet: [None]). *)
Definition captureFrame (toDataURL : option Frame -> string) (w : World) : string :=
  match rendererRef w with
  | Some g => toDataURL (sf ← surfaces w !! g; sf_canvas sf)
  | None => ""
  end.

(** *** Rendering of the component by React *)

Definition same_pixelRatio (a b : PixelRatio) : bool :=
  match a, b with
  | Device, Device | Capped, Capped => true
  | Explicit x, Explicit y => Js.same_number x y
  | _, _ => false
  end.

Definition same_object (a b : ObjId) : bool :=
  match a, b with
  | Caller m, Caller n | Fresh m, Fresh n => Nat.eqb m n
  | _, _ => false
  end.

(** [Object.is] on each entry of the dependency array. *)
Definition same_deps (a b : Deps) : bool :=
  String.eqb (d_fragmentShader a) (d_fragmentShader b)
  && String.eqb (d_vertexShader a) (d_vertexShader b)
  && Bool.eqb (d_transparent a) (d_transparent b)
  && Bool.eqb (d_antialias a) (d_antialias b)
  && Js.same_number (d_actualPixelRatio a) (d_actualPixelRatio b)
  && same_object (d_size a) (d_size b)
  && Bool.eqb (d_enableTimeUniform a) (d_enableTimeUniform b)
  && Bool.eqb (d_enableResolutionUniform a) (d_enableResolutionUniform b)
  && Bool.eqb (d_enableMouseUniform a) (d_enableMouseUniform b)
  && Bool.eqb (d_autoPlay a) (d_autoPlay b).

Definition deps_of (p : Props) (ratio : Q) (sizeId : ObjId) : Deps :=
  mkDeps (fragmentShader p) (vertexShader p) (transparent p) (antialias p) ratio
         sizeId (enableTimeUniform p) (enableResolutionUniform p)
         (enableMouseUniform p) (autoPlay p).

(** [useMemo(() => ..., [pixelRatio])]. *)
Definition useMemo_pixelRatio (p : Props) (dom : Dom) (w : World) : Q * World :=
  match pixelRatioMemo w with
  | Some (pr, v) =>
      if same_pixelRatio pr (pixelRatio p) then (v, w)
      else let v' := actualPixelRatio (pixelRatio p) dom in
           (v', set_pixelRatioMemo (Some (pixelRatio p, v')) w)
  | None =>
      let v' := actualPixelRatio (pixelRatio p) dom in
      (v', set_pixelRatioMemo (Some (pixelRatio p, v')) w)
  end.

(** The [size] of this render: the caller's object or a new default. *)
Definition size_of (p : Props) (w : World) : ObjId * SizeMode * World :=
  match size p with
  | Some (n, mode) => (Caller n, mode, w)
  | None => (Fresh (nextId w), Fill, set_nextId (S (nextId w)) w)
  end.

(** Whether the setup effect runs again for dependencies [d]. *)
Definition deps_changed (d : Deps) (w : World) : bool :=
  match lastDeps w with
  | Some old => negb (same_deps old d)
  | None => true
  end.

(** The render itself: the memoised pixel ratio and the [size] object. *)
Definition render_phase (p : Props) (dom : Dom) (w : World)
    : Q * ObjId * SizeMode * World :=
  let '(ratio, w0) := useMemo_pixelRatio p dom w in
  let '(sizeId, mode, w1) := size_of p w0 in
  (ratio, sizeId, mode, w1).

(** One render of the component with props [p], committed: the effect's
    cleanup and body run when a dependency changed. *)
Definition commit (p : Props) (dom : Dom) (w : World) : option World :=
  let '(ratio, sizeId, mode, w1) := render_phase p dom w in
  let d := deps_of p ratio sizeId in
  if deps_changed d w1 then
    let w2 := match cleanupFn w1 with
              | Some r => cleanup r w1
              | None => w1
              end in
    setup p ratio mode dom (set_lastDeps (Some d) w2)
  else Some w1.

(** The refs as [useRef] initialises them at the first render, with the
    container element attached. *)
Definition initial (p : Props) : World :=
  mkWorld true None None None None None None (initialTime p) (autoPlay p) None
          (playbackSpeed p) (0, 0) (0, 0) (mkSize 1 1) ∅ [] [] 0 None None None [].

Definition mount (p : Props) (dom : Dom) : option World := commit p dom (initial p).


(** *** Everything that can happen to a mounted component *)

Inductive step : World -> World -> Prop :=
| step_commit p dom w w' : commit p dom w = Some w' -> step w w'
| step_frame id cb timestamp w w' :
    (id, cb) ∈ pendingFrames w ->
    run_callback cb timestamp (cancelAnimationFrame id w) = Some w' ->
    step w w'
| step_resize r dom w w' :
    Resize r ∈ listeners w -> handleResize r dom w = Some w' -> step w w'
| step_mouse r x y rect w :
    MouseMove r ∈ listeners w -> step w (handleMouseMove x y rect w)
| step_play cb w : step w (play cb w)
| step_pause w : step w (pause w)
| step_reset t w : step w (reset t w)
| step_setTime t w : step w (setTime t w)
| step_setPlaybackSpeed s w : step w (setPlaybackSpeed s w)
| step_updateUniform name v w : step w (updateUniform name v w).

Inductive reachable : World -> Prop :=
| reach_mount p dom w : mount p dom = Some w -> reachable w
| reach_step w w' : reachable w -> step w w' -> reachable w'.

(** The clock after each tick of a run of the effect's loop, oldest first;
    the run ends if a tick raises. *)
Fixpoint clocks (r : Run) (timestamps : list Q) (w : World) : list Q :=
  match timestamps with
  | [] => []
  | t :: rest =>
      match animate_effect r t w with
      | Some w' => timeRef w' :: clocks r rest w'
      | None => []
      end
  end.

(** The same for the loop started by [play]. *)
Fixpoint clocks_play (onFrame : option nat) (timestamps : list Q) (w : World) : list Q :=
  match timestamps with
  | [] => []
  | t :: rest =>
      timeRef (animate_play onFrame t w)
      :: clocks_play onFrame rest (animate_play onFrame t w)
  end.

End ShaderCanvas.

(** ** Vocabulary of the statements *)

(** Component-wise equality of sizes as numbers. *)
Definition Size_equiv (a b : Size) : Prop :=
  width a == width b /\ height a == height b.

(** A bound as [Js.and_gt] sees it: absent or zero, it never clamps. *)
Definition provided (m : option Q) : option Q :=
  match m with
  | Some x => if Js.truthy x then Some x else None
  | None => None
  end.

(** Timestamps that never go back, starting from the last tick's (if any). *)
Fixpoint chronological (last : option Q) (timestamps : list Q) : Prop :=
  match timestamps with
  | [] => True
  | t :: rest =>
      match last with Some l => l <= t | None => True end
      /\ chronological (Some t) rest
  end.

(** [chain R x xs]: each element is related to the next, starting at [x]. *)
Fixpoint chain (R : Q -> Q -> Prop) (x : Q) (xs : list Q) : Prop :=
  match xs with
  | [] => True
  | y :: rest => R x y /\ chain R y rest
  end.

(** [steady R s]: at playback speed [s] a tick moves the clock along [R]
    whenever its timestamp is not before the last one. *)
Definition steady (R : Q -> Q -> Prop) (s : Q) : Prop :=
  (forall x, R x x)
  /\ forall l t c, l <= t -> R c (c + (t - l) / 1000 * s).

(** What a tick of the component leaves of the clock when it runs: the
    clock moved by [deltaTime_at] and the last-tick reference is the
    timestamp. *)
Definition ticked (t : Q) (w w' : ShaderCanvas.World) : Prop :=
  ShaderCanvas.timeRef w' = ShaderCanvas.timeRef w + ShaderCanvas.deltaTime_at t w
  /\ ShaderCanvas.lastTimestampRef w' = Some t
  /\ ShaderCanvas.playbackSpeedRef w' = ShaderCanvas.playbackSpeedRef w
  /\ ShaderCanvas.isPlayingRef w' = ShaderCanvas.isPlayingRef w.

(** The clock values [clocks], starting at [start], move as the playback
    speed says: up at speed 1, down at speed -1, not at all at speed 0. *)
Definition moves_by_speed (speed start : Q) (clocks : list Q) : Prop :=
  (speed == 1 -> chain Qle start clocks)
  /\ (speed == -1 -> chain (flip Qle) start clocks)
  /\ (speed == 0 -> chain Qeq start clocks).

(** The frame that the newest [Rendered g _] of a trace holds: what the
    last draw call left in the canvas of surface [g]. *)
Fixpoint last_rendered (g : nat) (events : list ShaderCanvas.Event)
    : option ShaderCanvas.Frame :=
  match events with
  | [] => None
  | ShaderCanvas.Rendered g' f :: rest =>
      if Nat.eqb g' g then Some f else last_rendered g rest
  | _ :: rest => last_rendered g rest
  end.

Definition is_error (e : ShaderCanvas.Event) : bool :=
  match e with
  | ShaderCanvas.OnError _ => true
  | _ => false
  end.

(** The refs of a mounted component point at the objects of the last run of
    the setup effect: these exist, are not disposed, and run the fragment
    shader the effect was given. *)
Definition live (w : ShaderCanvas.World) : Prop :=
  exists r sf d,
    ShaderCanvas.cleanupFn w = Some r
    /\ ShaderCanvas.rendererRef w = Some (ShaderCanvas.run_surface r)
    /\ ShaderCanvas.sceneRef w = Some (ShaderCanvas.run_surface r)
    /\ ShaderCanvas.cameraRef w = Some (ShaderCanvas.run_surface r)
    /\ ShaderCanvas.materialRef w = Some (ShaderCanvas.run_surface r)
    /\ ShaderCanvas.meshRef w = Some (ShaderCanvas.run_surface r)
    /\ ShaderCanvas.surfaces w !! ShaderCanvas.run_surface r = Some sf
    /\ ShaderCanvas.sf_disposed sf = false
    /\ ShaderCanvas.lastDeps w = Some d
    /\ ShaderCanvas.sf_fragmentShader sf = ShaderCanvas.d_fragmentShader d.

(** Bookkeeping that holds whether or not a surface is live: the container
    is attached, object names are below [nextId], every canvas holds the
    frame of the last draw call on it, and [onError] was never called. *)
Definition sound (w : ShaderCanvas.World) : Prop :=
  ShaderCanvas.containerRef w = true
  /\ (forall g, is_Some (ShaderCanvas.surfaces w !! g) -> (g < ShaderCanvas.nextId w)%nat)
  /\ (forall g, ShaderCanvas.surfaces w !! g ≫= ShaderCanvas.sf_canvas
                = last_rendered g (ShaderCanvas.trace w))
  /\ forallb (fun e => negb (is_error e)) (ShaderCanvas.trace w) = true.

Definition invariant (w : ShaderCanvas.World) : Prop := live w /\ sound w.

(** [preserves w w']: going from [w] to [w'] keeps what holds of a mounted
    component. *)
Definition preserves (w w' : ShaderCanvas.World) : Prop :=
  (sound w -> sound w') /\ (live w -> live w').

(** ** A worked example

    A component mounted in a 640x480 container with a caller-owned [size]
    object, then rendered again with only [enableMouseUniform] switched
    off; one mounted without auto-play; one mounted without auto-play on a
    source that is not GLSL, with an [onError] callback; and the hooks with
    their default options. *)

Definition example_dom : Dom := mkDom 640 480 640 480 1.

Definition example_props : ShaderCanvas.Props :=
  ShaderCanvas.mkProps "void main() {}" DEFAULT_VERTEX_SHADER None
    (Some (7%nat, Fill)) ShaderCanvas.Capped true 0 1 true true true false true
    None None None.

Definition example_props_no_pointer : ShaderCanvas.Props :=
  ShaderCanvas.mkProps "void main() {}" DEFAULT_VERTEX_SHADER None
    (Some (7%nat, Fill)) ShaderCanvas.Capped true 0 1 true true false false true
    None None None.

Definition example_props_malformed : ShaderCanvas.Props :=
  ShaderCanvas.mkProps "this is not GLSL" DEFAULT_VERTEX_SHADER None
    (Some (7%nat, Fill)) ShaderCanvas.Capped false 0 1 true true true false true
    None None (Some 9%nat).

Definition example_props_paused : ShaderCanvas.Props :=
  ShaderCanvas.mkProps "void main() {}" DEFAULT_VERTEX_SHADER None
    (Some (7%nat, Fill)) ShaderCanvas.Capped false 0 1 true true true false true
    None None None.

Definition example_mounted : ShaderCanvas.World :=
  Eval vm_compute in
    default (ShaderCanvas.initial example_props)
            (ShaderCanvas.mount example_props example_dom).

Definition example_rerendered : ShaderCanvas.World :=
  Eval vm_compute in
    default example_mounted
            (ShaderCanvas.commit example_props_no_pointer example_dom example_mounted).

Definition example_malformed : ShaderCanvas.World :=
  Eval vm_compute in
    default (ShaderCanvas.initial example_props_malformed)
            (ShaderCanvas.mount example_props_malformed example_dom).

Definition example_paused : ShaderCanvas.World :=
  Eval vm_compute in
    default (ShaderCanvas.initial example_props_paused)
            (ShaderCanvas.mount example_props_paused example_dom).

Definition example_options : UseAnimationLoop.Options :=
  UseAnimationLoop.mkOptions true 0 1 false.

Definition example_options_stopped : UseAnimationLoop.Options :=
  UseAnimationLoop.mkOptions false 0 1 false.

(** ** utils/color.ts *)

From Stdlib Require Import Ascii Qround.

Module Color.

(** In this module a JavaScript number is [option Q]: [None] is NaN, which
    [parseInt] returns when it finds no digit.  A string is a sequence of
    code units below 256. *)

(** The value of a digit in radix 16. *)
Definition hexDigit (c : ascii) : option Z :=
  let n := Z.of_N (N_of_ascii c) in
  if (48 <=? n)%Z && (n <=? 57)%Z then Some (n - 48)%Z
  else if (97 <=? n)%Z && (n <=? 102)%Z then Some (n - 87)%Z
  else if (65 <=? n)%Z && (n <=? 70)%Z then Some (n - 55)%Z
  else None.

(** White space and line terminators that [parseInt] skips. *)
Definition isWhiteSpace (c : ascii) : bool :=
  let n := N_of_ascii c in
  (N.eqb n 9 || N.eqb n 10 || N.eqb n 11 || N.eqb n 12 || N.eqb n 13
   || N.eqb n 32 || N.eqb n 160)%bool.

Fixpoint trimStart (s : string) : string :=
  match s with
  | String c rest => if isWhiteSpace c then trimStart rest else s
  | EmptyString => s
  end.

(** The value of the longest prefix of digits, [None] when it is empty. *)
Fixpoint digits16 (s : string) (acc : option Z) : option Z :=
  match s with
  | String c rest =>
      match hexDigit c with
      | Some d => digits16 rest (Some (16 * default 0%Z acc + d)%Z)
      | None => acc
      end
  | EmptyString => acc
  end.

(** [parseInt(s, 16)]: leading white space, a sign, a [0x] prefix, then the
    digits up to the first character that is not one. *)
Definition parseInt16 (s : string) : option Z :=
  let s1 := trimStart s in
  let '(sign, s2) :=
    match s1 with
    | String "-" rest => ((-1)%Z, rest)
    | String "+" rest => (1%Z, rest)
    | _ => (1%Z, s1)
    end in
  let s3 :=
    match s2 with
    | String "0" (String "x" rest) => rest
    | String "0" (String "X" rest) => rest
    | _ => s2
    end in
  (fun v => (sign * v)%Z) <$> digits16 s3 None.

(** [hex.replace(/^#/, '')]. *)
Definition stripHash (hex : string) : string :=
  match hex with
  | String "#" rest => rest
  | _ => hex
  end.

(** [h[0] + h[0] + h[1] + h[1] + h[2] + h[2]] for a string of length 3. *)
Definition expand3 (h : string) : string :=
  match h with
  | String a (String b (String c EmptyString)) =>
      String a (String a (String b (String b (String c (String c EmptyString)))))
  | _ => h
  end.

Definition channel (s : string) : option Q :=
  (fun n => inject_Z n / 255) <$> parseInt16 s.

(** [hexToU]; [None] is the thrown [Error]. *)
Definition hexToU (hex : string) : option (option Q * option Q * option Q) :=
  let h := stripHash hex in
  let h := if Nat.eqb (String.length h) 3 then expand3 h else h in
  if negb (Nat.eqb (String.length h) 6) then None
  else Some (channel (String.substring 0 2 h), channel (String.substring 2 2 h),
             channel (String.substring 4 2 h)).

(** [Math.max(0, Math.min(1, v))]. *)
Definition clamp (v : Q) : Q := Qmax 0 (Qmin 1 v).

(** [Math.round]: the nearest integer, halves going up. *)
Definition round (x : Q) : Z := Qfloor (x + (1 # 2)).

Definition digitChar (d : Z) : ascii :=
  if (d <? 10)%Z then ascii_of_N (Z.to_N (d + 48)) else ascii_of_N (Z.to_N (d + 87)).

Fixpoint toString16_go (fuel : nat) (n : Z) (acc : string) : string :=
  match fuel with
  | O => acc
  | S fuel' =>
      let acc' := String (digitChar (n mod 16)) acc in
      if (n / 16 =? 0)%Z then acc' else toString16_go fuel' (n / 16) acc'
  end.

(** [n.toString(16)] for an integer. *)
Definition toString16 (n : Z) : string :=
  if (n <? 0)%Z then String "-" (toString16_go (S (Z.to_nat (- n))) (- n) EmptyString)
  else toString16_go (S (Z.to_nat n)) n EmptyString.

(** [s.padStart(2, '0')]. *)
Definition padStart2 (s : string) : string :=
  match s with
  | EmptyString => "00"
  | String c EmptyString => String "0" s
  | _ => s
  end.

Definition upperChar (c : ascii) : ascii :=
  let n := N_of_ascii c in
  if (N.leb 97 n && N.leb n 122)%bool then ascii_of_N (n - 32) else c.

(** [toUpperCase] on the characters that occur here (ASCII). *)
Fixpoint toUpperCase (s : string) : string :=
  match s with
  | String c rest => String (upperChar c) (toUpperCase rest)
  | EmptyString => EmptyString
  end.

Definition toHex (v : Q) : string :=
  padStart2 (toString16 (round (clamp v * 255))).

Definition uToHex (u : Q * Q * Q) : string :=
  let '(r, g, b) := u in
  toUpperCase (String "#" (toHex r +:+ toHex g +:+ toHex b)).

Record Uniform3 := mkUniform3 { value : option Q * option Q * option Q }.

Definition hexToUniform (hex : string) : option Uniform3 :=
  mkUniform3 <$> hexToU hex.

(** A digit of radix 16, in upper case. *)
Definition isUpperHex (c : ascii) : bool :=
  let n := N_of_ascii c in
  ((N.leb 48 n && N.leb n 57) || (N.leb 65 n && N.leb n 70))%bool.

Definition isHex (c : ascii) : bool :=
  match hexDigit c with Some _ => true | None => false end.

Fixpoint allChars (P : ascii -> bool) (s : string) : bool :=
  match s with
  | String c rest => P c && allChars P rest
  | EmptyString => true
  end.

End Color.

(** *** Vocabulary for the colour statements *)

(** Every code unit below 256, and every byte value. *)
Definition all_ascii : list ascii := List.map ascii_of_nat (seq 0 256).

Definition all_bytes : list Z := List.map Z.of_nat (seq 0 256).

(** The two upper-case digits [uToHex] writes for the byte [n]. *)
Definition hex2 (n : Z) : string :=
  Color.toUpperCase (Color.padStart2 (Color.toString16 n)).

(** What holds of each byte [n]: the channel [n / 255] rounds back to [n],
    and [hex2 n] is two upper-case digits that [parseInt] reads as [n]. *)
Definition byte_ok (n : Z) : bool :=
  (Color.round (Color.clamp (inject_Z n / 255) * 255) =? n)%Z
  && match Color.parseInt16 (hex2 n) with
     | Some m => (m =? n)%Z
     | None => false
     end
  && Nat.eqb (String.length (hex2 n)) 2
  && Color.allChars Color.isUpperHex (hex2 n).

(** What holds of each pair of digits: [parseInt] reads a byte from it,
    whose [hex2] is the pair in upper case; and a first character that is
    neither digit, sign nor white space makes [parseInt] return NaN. *)
Definition pair_ok (c1 c2 : ascii) : bool :=
  implb (Color.isHex c1 && Color.isHex c2)
        match Color.parseInt16 (String c1 (String c2 EmptyString)) with
        | Some n =>
            (0 <=? n)%Z && (n <=? 255)%Z
            && String.eqb (hex2 n)
                 (String (Color.upperChar c1) (String (Color.upperChar c2) EmptyString))
        | None => false
        end
  && implb (negb (Color.isHex c1) && negb (Color.isWhiteSpace c1)
            && negb (Ascii.eqb c1 "+") && negb (Ascii.eqb c1 "-"))
           match Color.parseInt16 (String c1 (String c2 EmptyString)) with
           | Some _ => false
           | None => true
           end.


(** ** hooks/useMouseTracking.ts *)

Module UseMouseTracking.

Record Hook := mkHook {
  mousePosition : Q * Q;
  mouseNormalized : Q * Q;
  listening : bool          (* the two listeners are on the container *)
}.

Definition init : Hook := mkHook (0, 0) (0, 0) false.

(** The effect: nothing is subscribed when tracking is disabled or the
    container is missing. *)
Definition subscribe (enabled container : bool) (h : Hook) : Hook :=
  if negb enabled then h
  else if negb container then h
  else mkHook (mousePosition h) (mouseNormalized h) true.

Definition unsubscribe (h : Hook) : Hook :=
  mkHook (mousePosition h) (mouseNormalized h) false.

Definition handleMouseMove (clientX clientY : Q) (rect : ShaderCanvas.Rect)
    (h : Hook) : Hook :=
  let x := clientX - ShaderCanvas.left rect in
  let y := clientY - ShaderCanvas.top rect in
  mkHook (x, ShaderCanvas.rect_height rect - y)
         (x / ShaderCanvas.rect_width rect, 1 - y / ShaderCanvas.rect_height rect)
         (listening h).

(** [event.touches] is the list of the touch points' [(clientX, clientY)]. *)
Definition handleTouchMove (touches : list (Q * Q)) (rect : ShaderCanvas.Rect)
    (h : Hook) : Hook :=
  match touches with
  | [] => h
  | (clientX, clientY) :: _ =>
      let x := clientX - ShaderCanvas.left rect in
      let y := clientY - ShaderCanvas.top rect in
      mkHook (x, ShaderCanvas.rect_height rect - y)
             (x / ShaderCanvas.rect_width rect, 1 - y / ShaderCanvas.rect_height rect)
             (listening h)
  end.

End UseMouseTracking.

(** *** Vocabulary for the pointer statements *)

(** The point [(x, y)] lies in the rectangle. *)
Definition inside (rect : ShaderCanvas.Rect) (x y : Q) : Prop :=
  ShaderCanvas.left rect <= x <= ShaderCanvas.left rect + ShaderCanvas.rect_width rect
  /\ ShaderCanvas.top rect <= y <= ShaderCanvas.top rect + ShaderCanvas.rect_height rect.

(** Raw and normalised coordinates as the shader expects them: raw within
    the rectangle's size, normalised within the unit square. *)
Definition in_range (rect : ShaderCanvas.Rect) (raw normalized : Q * Q) : Prop :=
  (0 <= raw.1 <= ShaderCanvas.rect_width rect
   /\ 0 <= raw.2 <= ShaderCanvas.rect_height rect)
  /\ (0 <= normalized.1 <= 1 /\ 0 <= normalized.2 <= 1).


(** *** Vocabulary for the uniform statements *)

(** The initial value of a built-in uniform, when its flag enables it. *)
Definition builtin_initial (enableTime enableResolution enableMouse : bool)
    (name : string) : option UniformValue :=
  if String.eqb name "u_time" then
    if enableTime then Some (UNumber 0) else None
  else if String.eqb name "u_resolution" then
    if enableResolution then Some (UVector2 1 1) else None
  else if String.eqb name "u_mouse" || String.eqb name "u_mouseNormalized" then
    if enableMouse then Some (UVector2 0 0) else None
  else None.

(** A uniform entry on which [.value.set(x, y)] is known to work: a
    [Vector2], or no entry at all (then the call is skipped). *)
Definition vec2_or_absent (entry : option UniformValue) : Prop :=
  match entry with
  | None | Some (UVector2 _ _) => True
  | Some _ => False
  end.

(** *** Runs of ticks *)



(** *** Vocabulary for the lifecycle statements *)

(** The listeners a run of the setup effect registers. *)
Definition listeners_of (r : ShaderCanvas.Run) : list ShaderCanvas.Listener :=
  (if ShaderCanvas.run_enableMouse r then [ShaderCanvas.MouseMove r] else [])
  ++ [ShaderCanvas.Resize r].

Definition flags (sf : ShaderCanvas.Surface) : bool * bool :=
  (ShaderCanvas.sf_disposed sf, ShaderCanvas.sf_attached sf).

(** At most one frame is requested, [rafIdRef] names it, and none is
    requested while Stopped. *)
Definition one_pending (w : ShaderCanvas.World) : Prop :=
  (ShaderCanvas.pendingFrames w = []
   \/ exists id cb, ShaderCanvas.pendingFrames w = [(id, cb)]
                    /\ ShaderCanvas.rafIdRef w = Some id)
  /\ (ShaderCanvas.isPlayingRef w = false -> ShaderCanvas.pendingFrames w = []).

(** The listeners are those of the last effect run, whose pointer flag is
    the one of the last dependencies. *)
Definition own_listeners (w : ShaderCanvas.World) : Prop :=
  exists r d,
    ShaderCanvas.cleanupFn w = Some r
    /\ ShaderCanvas.lastDeps w = Some d
    /\ ShaderCanvas.run_enableMouse r = ShaderCanvas.d_enableMouseUniform d
    /\ ShaderCanvas.listeners w = listeners_of r.

(** Every surface but the one in [rendererRef] is disposed and detached. *)
Definition others_disposed (w : ShaderCanvas.World) : Prop :=
  forall g sf,
    ShaderCanvas.surfaces w !! g = Some sf ->
    ShaderCanvas.rendererRef w <> Some g ->
    flags sf = (true, false).

(** A default [size] object of the last dependencies is older than every
    object still to come. *)
Definition deps_known (w : ShaderCanvas.World) : Prop :=
  forall d n,
    ShaderCanvas.lastDeps w = Some d ->
    ShaderCanvas.d_size d = ShaderCanvas.Fresh n ->
    (n < ShaderCanvas.nextId w)%nat.

Definition tidy (w : ShaderCanvas.World) : Prop :=
  one_pending w /\ own_listeners w /\ others_disposed w /\ deps_known w.

(** [quiet w w']: from [w] to [w'] no frame was requested or cancelled, no
    listener, ref or dependency changed, and no surface was created,
    disposed or detached. *)
Definition quiet (w w' : ShaderCanvas.World) : Prop :=
  ShaderCanvas.pendingFrames w' = ShaderCanvas.pendingFrames w
  /\ ShaderCanvas.rafIdRef w' = ShaderCanvas.rafIdRef w
  /\ ShaderCanvas.isPlayingRef w' = ShaderCanvas.isPlayingRef w
  /\ ShaderCanvas.listeners w' = ShaderCanvas.listeners w
  /\ ShaderCanvas.cleanupFn w' = ShaderCanvas.cleanupFn w
  /\ ShaderCanvas.rendererRef w' = ShaderCanvas.rendererRef w
  /\ ShaderCanvas.lastDeps w' = ShaderCanvas.lastDeps w
  /\ (ShaderCanvas.nextId w <= ShaderCanvas.nextId w')%nat
  /\ forall g, flags <$> ShaderCanvas.surfaces w' !! g
               = flags <$> ShaderCanvas.surfaces w !! g.

(** The component with only [fragmentShader] given, mounted and then
    rendered again with the same props. *)
Definition example_default_mounted : ShaderCanvas.World :=
  Eval vm_compute in
    default (ShaderCanvas.initial (ShaderCanvas.defaultProps "void main() {}"))
            (ShaderCanvas.mount (ShaderCanvas.defaultProps "void main() {}") example_dom).

Definition example_default_rerendered : ShaderCanvas.World :=
  Eval vm_compute in
    default example_default_mounted
            (ShaderCanvas.commit (ShaderCanvas.defaultProps "void main() {}")
               example_dom example_default_mounted).

(** The mounted example rendered again with [autoPlay] switched off. *)
Definition example_autoplay_off : ShaderCanvas.World :=
  Eval vm_compute in
    default example_mounted
            (ShaderCanvas.commit example_props_paused example_dom example_mounted).


(** * Properties *)

(** Unfolds the helpers that leave the clock and the refs alone. *)
Ltac unfold_helpers :=
  unfold ShaderCanvas.schedule, ShaderCanvas.requestAnimationFrame,
    ShaderCanvas.cancelAnimationFrame, ShaderCanvas.render, ShaderCanvas.call,
    ShaderCanvas.emit.

(** ** Size policy *)

Section SizePolicy.

Import UseResizeObserver.

Lemma or_else_nonzero (x d : Q) : ~ x == 0 -> x ||? d = x.
Proof.
  intros Hx. unfold Js.or_else, Js.truthy.
  destruct (Qeq_bool x 0) eqn:E; [|reflexivity].
  apply Qeq_bool_iff in E. contradiction.
Qed.

Lemma or_else_zero (x d : Q) : x == 0 -> x ||? d = d.
Proof.
  intros Hx. unfold Js.or_else, Js.truthy.
  apply Qeq_bool_iff in Hx. now rewrite Hx.
Qed.

Lemma or_else_dec (x d : Q) :
  x ||? d = if Qeq_dec x 0 then d else x.
Proof.
  destruct (Qeq_dec x 0) as [Hx|Hx];
    [apply or_else_zero | apply or_else_nonzero]; assumption.
Qed.

Lemma and_gt_provided (m : option Q) (x : Q) :
  Js.and_gt m x = clamp_gt (provided m) x.
Proof.
  destruct m as [m|]; simpl; [|reflexivity].
  destruct (Js.truthy m); reflexivity.
Qed.

Lemma provided_default (m : option Q) (x : Q) :
  clamp_gt (provided m) x = true -> default 0 (provided m) = default 0 m.
Proof.
  destruct m as [m|]; simpl; [|discriminate].
  destruct (Js.truthy m); simpl; [reflexivity|discriminate].
Qed.

(** C10.  In [fill] mode each axis falls back on its own: the width is the
    container's measured width unless that is zero, then 300; the height
    is the measured height unless zero, then 150.  The hook's
    [calculateSize] and the component's [updateSize] agree on it, and a
    0x400 container gives 300x400, a 0x0 container 300x150. *)
Theorem fill_fallback_per_axis :
  (forall dom : Dom,
      calculateSize Fill dom
      = mkSize (if Qeq_dec (clientWidth dom) 0 then 300 else clientWidth dom)
               (if Qeq_dec (clientHeight dom) 0 then 150 else clientHeight dom)
      /\ ShaderCanvas.targetSize Fill dom = calculateSize Fill dom)
  /\ (forall iw ih dpr, calculateSize Fill (mkDom 0 400 iw ih dpr) = mkSize 300 400)
  /\ (forall iw ih dpr, calculateSize Fill (mkDom 0 0 iw ih dpr) = mkSize 300 150).
Proof.
  split; [|split; reflexivity].
  intros dom. split; [|reflexivity].
  simpl. now rewrite !or_else_dec.
Qed.

(** The component's [updateSize] gives the renderer the size that
    [targetSize] chooses, and [sizeRef] that size in device pixels. *)
Lemma updateSize_size r dom w w' :
  ShaderCanvas.updateSize r dom w = Some w' ->
  ShaderCanvas.sf_size <$> ShaderCanvas.surfaces w' !! ShaderCanvas.run_surface r
  = Some (ShaderCanvas.targetSize (ShaderCanvas.run_size r) dom)
  /\ ShaderCanvas.sizeRef w'
     = mkSize (width (ShaderCanvas.targetSize (ShaderCanvas.run_size r) dom)
               * ShaderCanvas.run_pixelRatio r)
              (height (ShaderCanvas.targetSize (ShaderCanvas.run_size r) dom)
               * ShaderCanvas.run_pixelRatio r).
Proof.
  unfold ShaderCanvas.updateSize.
  destruct (ShaderCanvas.surfaces w !! ShaderCanvas.run_surface r) as [sf|];
    simpl; [|discriminate].
  destruct (ShaderCanvas.assign_vec2 "u_resolution" _ _) as [u|]; simpl; [|discriminate].
  intros [= <-]. destruct (ShaderCanvas.run_onResize r); simpl;
    rewrite lookup_insert_eq; auto.
Qed.

(** C7, as stated: the procedure applied to the container's measured
    size.  It fails for a container that measures 0x0 in an 800x600
    window: the code starts from the window's size and returns 800x400. *)
Lemma aspect_measured_size_counterexample :
  calculateSize (Aspect 2 None None) (mkDom 0 0 800 600 1) = mkSize 800 (800 / 2)
  /\ ~ Size_equiv (calculateSize (Aspect 2 None None) (mkDom 0 0 800 600 1))
                  (aspect_spec 2 None None 0 0).
Proof.
  split; [reflexivity|]. intros [Hw _]. vm_compute in Hw. discriminate.
Qed.

(** Every step of the [aspect] branch keeps [width = height * ratio]. *)
Lemma aspect_ratio_preserved ratio maxWidth maxHeight dom :
  ~ ratio == 0 ->
  width (calculateSize (Aspect ratio maxWidth maxHeight) dom)
  == height (calculateSize (Aspect ratio maxWidth maxHeight) dom) * ratio.
Proof.
  intros Hr. simpl. unfold calculateSize_aspect.
  destruct (Js.gt _ _); destruct (Js.and_gt maxWidth _);
    destruct (Js.and_gt maxHeight _); simpl; try reflexivity; now field.
Qed.

(** C7, amended.  In [aspect] mode the procedure of the claim is applied
    to the container's width and height, each replaced by the window's
    when it measures zero, and with the bounds that are provided and not
    zero; the result keeps the ratio; for ratio 2, [maxWidth] 400 and a
    1000x200 container it is 400x200. *)
Theorem aspect_size_computation :
  (forall ratio maxWidth maxHeight dom,
      calculateSize (Aspect ratio maxWidth maxHeight) dom
      = aspect_spec ratio (provided maxWidth) (provided maxHeight)
          (clientWidth dom ||? innerWidth dom)
          (clientHeight dom ||? innerHeight dom))
  /\ (forall ratio maxWidth maxHeight dom,
      ~ ratio == 0 ->
      width (calculateSize (Aspect ratio maxWidth maxHeight) dom)
      == height (calculateSize (Aspect ratio maxWidth maxHeight) dom) * ratio)
  /\ (forall iw ih dpr,
      calculateSize (Aspect 2 (Some 400) None) (mkDom 1000 200 iw ih dpr)
      = mkSize 400 200).
Proof.
  split; [|split; [exact aspect_ratio_preserved | reflexivity]].
  intros ratio mw mh dom. simpl.
  unfold calculateSize_aspect, aspect_spec.
  set (cw := clientWidth dom ||? innerWidth dom).
  set (ch := clientHeight dom ||? innerHeight dom).
  destruct (Js.gt (cw / ratio) ch);
    rewrite and_gt_provided;
    match goal with |- context [clamp_gt (provided mw) ?x] =>
      destruct (clamp_gt (provided mw) x) eqn:E1 end;
    try rewrite (provided_default _ _ E1);
    rewrite and_gt_provided;
    match goal with |- context [clamp_gt (provided mh) ?x] =>
      destruct (clamp_gt (provided mh) x) eqn:E2 end;
    try rewrite (provided_default _ _ E2); reflexivity.
Qed.

Lemma aspect_size_computation_witness :
  width (calculateSize (Aspect 2 (Some 400) None) example_dom)
  == height (calculateSize (Aspect 2 (Some 400) None) example_dom) * 2.
Proof.
  apply (proj1 (proj2 aspect_size_computation) 2 (Some 400) None example_dom).
  intros H. vm_compute in H. discriminate.
Defined.

End SizePolicy.

(** ** The animation clock *)

Section Clock.

Lemma first_delta_zero (t speed : Q) : (t - t) / 1000 * speed == 0.
Proof. field. Qed.

Lemma elapsed_nonneg (l t : Q) : l <= t -> 0 <= (t - l) / 1000.
Proof. intros H. apply Qle_shift_div_l; lra. Qed.

Lemma steady_forward (s : Q) : s == 1 -> steady Qle s.
Proof.
  intros Hs. split; [intros x; apply Qle_refl|].
  intros l t c H. pose proof (elapsed_nonneg l t H). rewrite Hs. lra.
Qed.

Lemma steady_backward (s : Q) : s == -1 -> steady (flip Qle) s.
Proof.
  intros Hs. split; [intros x; apply Qle_refl|].
  intros l t c H. pose proof (elapsed_nonneg l t H). unfold flip. rewrite Hs. lra.
Qed.

Lemma steady_frozen (s : Q) : s == 0 -> steady Qeq s.
Proof.
  intros Hs. split; [intros x; reflexivity|].
  intros l t c _. rewrite Hs. ring.
Qed.

Lemma chronological_skip (last : option Q) (t : Q) (rest : list Q) :
  chronological last (t :: rest) -> chronological last rest.
Proof.
  destruct rest as [|t' rest]; [constructor|].
  simpl. intros [Hl [Ht Hrest]]. split; [|assumption].
  destruct last as [l|]; [|exact I]. eapply Qle_trans; eassumption.
Qed.

(** The step of the clock at a tick, for a last-tick reference [last]. *)
Lemma steady_tick (R : Q -> Q -> Prop) (s c t : Q) (last : option Q) :
  steady R s ->
  match last with Some l => l <= t | None => True end ->
  R c (c + (t - default t last) / 1000 * s).
Proof.
  intros [_ HR] Hl. destruct last as [l|]; simpl.
  - now apply HR.
  - apply HR, Qle_refl.
Qed.

End Clock.

(** *** Ticks of the hook's loop *)

Section HookClock.

Import UseAnimationLoop.

Lemma hook_animate_stopped o t h : isPlayingRef h = false -> animate o t h = h.
Proof. intros H. unfold animate. now rewrite H. Qed.

Lemma hook_animate_playing o t h :
  isPlayingRef h = true ->
  timeRef (animate o t h) = timeRef h + deltaTime_at t h
  /\ lastTimestampRef (animate o t h) = Some t
  /\ playbackSpeedRef (animate o t h) = playbackSpeedRef h
  /\ isPlayingRef (animate o t h) = true.
Proof.
  intros H. unfold animate, requestAnimationFrame, render, emit. rewrite H.
  destruct (onFrame o), (surfaceRefs h); simpl; rewrite ?H; auto.
Qed.

Lemma hook_clocks_chain (R : Q -> Q -> Prop) o timestamps :
  forall h,
    steady R (playbackSpeedRef h) ->
    chronological (lastTimestampRef h) timestamps ->
    chain R (timeRef h) (clocks o timestamps h).
Proof.
  induction timestamps as [|t rest IH]; intros h HR Hc; [exact I|].
  simpl. destruct (isPlayingRef h) eqn:Hp.
  - destruct (hook_animate_playing o t h Hp) as (Ht & Hl & Hs & _).
    destruct Hc as [Hlast Hrest]. split.
    + rewrite Ht. exact (steady_tick R _ _ t _ HR Hlast).
    + apply IH; [now rewrite Hs | now rewrite Hl].
  - rewrite (hook_animate_stopped o t h Hp). split.
    + apply HR.
    + apply IH; [assumption | eapply chronological_skip; eassumption].
Qed.

End HookClock.

(** *** Ticks of the component's loops *)

Section ComponentClock.

Import ShaderCanvas.

Lemma animate_effect_clock r t w w' :
  animate_effect r t w = Some w' ->
  (isPlayingRef w = false /\ w' = w) \/ (isPlayingRef w = true /\ ticked t w w').
Proof.
  unfold animate_effect. destruct (isPlayingRef w) eqn:Hp; simpl.
  - intros H. right. split; [reflexivity|].
    destruct (surfaces w !! run_surface r) as [sf|]; simpl in H; [|discriminate].
    destruct (assign_vec2 "u_mouse" _ _) as [u2|]; simpl in H; [|discriminate].
    destruct (assign_vec2 "u_mouseNormalized" _ _) as [u3|]; simpl in H; [|discriminate].
    injection H as <-. unfold ticked. unfold_helpers.
    repeat case_match; simpl; rewrite ?Hp; auto.
  - intros [= <-]. left. auto.
Qed.

Lemma animate_play_clock cb t w :
  animate_play cb t w = w \/ ticked t w (animate_play cb t w).
Proof.
  unfold animate_play. destruct (isPlayingRef w) eqn:Hp; simpl; [|now left].
  destruct (materialRef w) as [m|]; [|now left].
  destruct (rendererRef w) as [rd|]; [|now left].
  destruct (sceneRef w) as [sc|]; [|now left].
  destruct (cameraRef w) as [cam|]; [|now left].
  right. unfold ticked. unfold_helpers.
  repeat case_match; simpl; rewrite ?Hp; auto.
Qed.

Lemma effect_clocks_chain (R : Q -> Q -> Prop) r timestamps :
  forall w,
    steady R (playbackSpeedRef w) ->
    chronological (lastTimestampRef w) timestamps ->
    chain R (timeRef w) (clocks r timestamps w).
Proof.
  induction timestamps as [|t rest IH]; intros w HR Hc; [exact I|].
  simpl. destruct (animate_effect r t w) as [w'|] eqn:E; [|exact I].
  destruct (animate_effect_clock r t w w' E) as [[_ ->]|[_ (Ht & Hl & Hs & _)]].
  - split; [apply HR|]. apply IH; [assumption|].
    eapply chronological_skip; eassumption.
  - destruct Hc as [Hlast Hrest]. split.
    + rewrite Ht. exact (steady_tick R _ _ t _ HR Hlast).
    + apply IH; [now rewrite Hs | now rewrite Hl].
Qed.

Lemma play_clocks_chain (R : Q -> Q -> Prop) cb timestamps :
  forall w,
    steady R (playbackSpeedRef w) ->
    chronological (lastTimestampRef w) timestamps ->
    chain R (timeRef w) (clocks_play cb timestamps w).
Proof.
  induction timestamps as [|t rest IH]; intros w HR Hc; [exact I|].
  simpl. destruct (animate_play_clock cb t w) as [->|(Ht & Hl & Hs & _)].
  - split; [apply HR|]. apply IH; [assumption|].
    eapply chronological_skip; eassumption.
  - destruct Hc as [Hlast Hrest]. split.
    + rewrite Ht. exact (steady_tick R _ _ t _ HR Hlast).
    + apply IH; [now rewrite Hs | now rewrite Hl].
Qed.

End ComponentClock.

(** *** Monotonicity and the first tick after [play] *)

Section ClockClaims.

Lemma moves_by_speed_intro (speed start : Q) (cs : list Q) :
  (forall R, steady R speed -> chain R start cs) -> moves_by_speed speed start cs.
Proof.
  intros H. repeat split; intros Hs; apply H;
    [apply steady_forward | apply steady_backward | apply steady_frozen]; exact Hs.
Qed.

(** C6.  For ticks whose timestamps never go back, the clock after each
    tick is non-decreasing at playback speed 1, non-increasing at speed -1
    and constant at speed 0; this holds for the hook's loop, for the loop
    of the component's setup effect and for the loop started by [play]. *)
Theorem clock_monotone_by_speed (timestamps : list Q) :
  (forall o h,
      chronological (UseAnimationLoop.lastTimestampRef h) timestamps ->
      moves_by_speed (UseAnimationLoop.playbackSpeedRef h) (UseAnimationLoop.timeRef h)
        (UseAnimationLoop.clocks o timestamps h))
  /\ (forall r w,
      chronological (ShaderCanvas.lastTimestampRef w) timestamps ->
      moves_by_speed (ShaderCanvas.playbackSpeedRef w) (ShaderCanvas.timeRef w)
        (ShaderCanvas.clocks r timestamps w))
  /\ (forall cb w,
      chronological (ShaderCanvas.lastTimestampRef w) timestamps ->
      moves_by_speed (ShaderCanvas.playbackSpeedRef w) (ShaderCanvas.timeRef w)
        (ShaderCanvas.clocks_play cb timestamps w)).
Proof.
  split; [|split]; intros; apply moves_by_speed_intro; intros R HR.
  - now apply hook_clocks_chain.
  - now apply effect_clocks_chain.
  - now apply play_clocks_chain.
Qed.

Lemma clock_monotone_by_speed_witness :
  chain Qle 0 (UseAnimationLoop.clocks example_options [0; 16; 40]
                 (UseAnimationLoop.init example_options true)).
Proof.
  refine (proj1 (proj1 (clock_monotone_by_speed [0; 16; 40])
                       example_options
                       (UseAnimationLoop.init example_options true) _) _).
  - simpl. repeat split; unfold Qle; simpl; lia.
  - reflexivity.
Defined.

(** C5, as stated: after any calls ending in [play()] the next tick has a
    zero delta.  It fails when [play()] is called while already Playing.
    In the hook: from Stopped, [play()], a tick at 1000 ms, [play()] again,
    and the tick at 2000 ms computes a delta of one second.  In the
    component: mounted with auto-play, a tick at 1000 ms, [play()], and the
    tick at 2000 ms computes one second. *)
Lemma play_while_playing_counterexample :
  ~ UseAnimationLoop.deltaTime_at 2000
      (UseAnimationLoop.play
         (UseAnimationLoop.animate example_options_stopped 1000
            (UseAnimationLoop.play
               (UseAnimationLoop.init example_options_stopped true)))) == 0
  /\ exists r w1,
      ShaderCanvas.mount example_props example_dom = Some example_mounted
      /\ ShaderCanvas.cleanupFn example_mounted = Some r
      /\ ShaderCanvas.animate_effect r 1000 example_mounted = Some w1
      /\ ~ ShaderCanvas.deltaTime_at 2000 (ShaderCanvas.play None w1) == 0.
Proof.
  split.
  - intros H. vm_compute in H. discriminate.
  - eexists _, _. split; [vm_compute; reflexivity|].
    split; [reflexivity|]. split; [vm_compute; reflexivity|].
    intros H. vm_compute in H. discriminate.
Qed.

(** C5, amended.  A [play()] issued while Stopped (for instance right
    after [pause()]) clears the last-tick reference, so the first tick
    after it computes a zero delta and leaves the clock where it was,
    whatever its timestamp; a [play()] issued while Playing changes
    nothing. *)
Theorem play_from_stopped_first_delta_zero :
  (forall o h t,
      UseAnimationLoop.isPlayingRef h = false ->
      let h' := UseAnimationLoop.play h in
      UseAnimationLoop.isPlayingRef h' = true
      /\ UseAnimationLoop.lastTimestampRef h' = None
      /\ UseAnimationLoop.deltaTime_at t h' == 0
      /\ UseAnimationLoop.timeRef (UseAnimationLoop.animate o t h')
         == UseAnimationLoop.timeRef h)
  /\ (forall cb w t,
      ShaderCanvas.isPlayingRef w = false ->
      let w' := ShaderCanvas.play cb w in
      ShaderCanvas.isPlayingRef w' = true
      /\ ShaderCanvas.lastTimestampRef w' = None
      /\ head (ShaderCanvas.pendingFrames w')
         = Some (ShaderCanvas.nextId w, ShaderCanvas.AnimatePlay cb)
      /\ ShaderCanvas.deltaTime_at t w' == 0
      /\ ShaderCanvas.timeRef (ShaderCanvas.animate_play cb t w')
         == ShaderCanvas.timeRef w)
  /\ (forall h t,
      UseAnimationLoop.deltaTime_at t (UseAnimationLoop.play (UseAnimationLoop.pause h)) == 0)
  /\ (forall cb w t,
      ShaderCanvas.deltaTime_at t (ShaderCanvas.play cb (ShaderCanvas.pause w)) == 0)
  /\ (forall h, UseAnimationLoop.isPlayingRef h = true -> UseAnimationLoop.play h = h)
  /\ (forall cb w, ShaderCanvas.isPlayingRef w = true -> ShaderCanvas.play cb w = w).
Proof.
  assert (Hhook : forall h t, UseAnimationLoop.isPlayingRef h = false ->
            UseAnimationLoop.deltaTime_at t (UseAnimationLoop.play h) == 0).
  { intros h t Hp. unfold UseAnimationLoop.play. rewrite Hp.
    unfold UseAnimationLoop.deltaTime_at. simpl. apply first_delta_zero. }
  assert (Hcomp : forall cb w t, ShaderCanvas.isPlayingRef w = false ->
            ShaderCanvas.deltaTime_at t (ShaderCanvas.play cb w) == 0).
  { intros cb w t Hp. unfold ShaderCanvas.play. rewrite Hp.
    unfold ShaderCanvas.deltaTime_at. simpl. apply first_delta_zero. }
  split; [|split; [|split; [|split; [|split]]]].
  - intros o h t Hp h'. split; [|split; [|split]].
    + subst h'. unfold UseAnimationLoop.play. now rewrite Hp.
    + subst h'. unfold UseAnimationLoop.play. now rewrite Hp.
    + now apply Hhook.
    + assert (Hp' : UseAnimationLoop.isPlayingRef h' = true)
        by (subst h'; unfold UseAnimationLoop.play; now rewrite Hp).
      assert (Ht : UseAnimationLoop.timeRef h' = UseAnimationLoop.timeRef h)
        by (subst h'; unfold UseAnimationLoop.play; now rewrite Hp).
      destruct (hook_animate_playing o t h' Hp') as (-> & _).
      rewrite Ht. subst h'. rewrite (Hhook h t Hp). ring.
  - intros cb w t Hp w'. split; [|split; [|split; [|split]]].
    + subst w'. unfold ShaderCanvas.play. now rewrite Hp.
    + subst w'. unfold ShaderCanvas.play. now rewrite Hp.
    + subst w'. unfold ShaderCanvas.play. now rewrite Hp.
    + now apply Hcomp.
    + assert (Ht : ShaderCanvas.timeRef w' = ShaderCanvas.timeRef w)
        by (subst w'; unfold ShaderCanvas.play; now rewrite Hp).
      destruct (animate_play_clock cb t w') as [->|(-> & _)].
      * now rewrite Ht.
      * rewrite Ht. subst w'. rewrite (Hcomp cb w t Hp). ring.
  - intros h t. apply Hhook. unfold UseAnimationLoop.pause.
    now destruct (UseAnimationLoop.rafIdRef h).
  - intros cb w t. apply Hcomp. unfold ShaderCanvas.pause. simpl.
    now destruct (ShaderCanvas.rafIdRef w).
  - intros h Hp. unfold UseAnimationLoop.play. now rewrite Hp.
  - intros cb w Hp. unfold ShaderCanvas.play. now rewrite Hp.
Qed.

Lemma play_from_stopped_first_delta_zero_witness :
  UseAnimationLoop.deltaTime_at 5000
    (UseAnimationLoop.play (UseAnimationLoop.init example_options_stopped true)) == 0.
Proof.
  exact (proj1 (proj2 (proj2 (proj1 play_from_stopped_first_delta_zero
                                    example_options_stopped
                                    (UseAnimationLoop.init example_options_stopped true)
                                    5000 eq_refl)))).
Defined.

End ClockClaims.

(** ** The uniform registry *)

Section Uniforms.

Import ShaderCanvas.

Lemma getUniform_assign_material name v w :
  getUniform name (assign_material name v w) = (fun _ => v) <$> getUniform name w.
Proof.
  unfold getUniform, material_uniforms, assign_material.
  destruct (materialRef w) as [g|] eqn:Hm; simpl; [|now rewrite Hm].
  destruct (surfaces w !! g) as [sf|] eqn:Hs; simpl; [|now rewrite Hm; simpl; rewrite Hs].
  destruct (sf_uniforms sf !! name) eqn:Hu; simpl.
  - rewrite Hm. simpl. rewrite lookup_insert_eq. simpl. now rewrite lookup_insert_eq.
  - rewrite Hm. simpl. rewrite Hs. simpl. now rewrite Hu.
Qed.




(** *** [setTime] and [reset] *)

(** The content of the drawing buffer of surface [g]. *)
Lemma canvas_assign_material g name v w :
  surfaces (assign_material name v w) !! g ≫= sf_canvas = surfaces w !! g ≫= sf_canvas.
Proof.
  unfold assign_material.
  destruct (materialRef w) as [m|]; [|reflexivity].
  destruct (surfaces w !! m) as [sf|] eqn:Hs; [|reflexivity].
  destruct (sf_uniforms sf !! name); [|reflexivity].
  simpl. destruct (decide (m = g)) as [->|Hne].
  - rewrite lookup_insert_eq, Hs. reflexivity.
  - now rewrite lookup_insert_ne.
Qed.

Lemma refs_assign_material name v w :
  timeRef (assign_material name v w) = timeRef w
  /\ isPlayingRef (assign_material name v w) = isPlayingRef w
  /\ lastTimestampRef (assign_material name v w) = lastTimestampRef w
  /\ rendererRef (assign_material name v w) = rendererRef w
  /\ trace (assign_material name v w) = trace w.
Proof.
  unfold assign_material. repeat case_match; simpl; auto.
Qed.

(** The hook's [setTime] and [reset] do call [render()]. *)
Lemma hook_setTime_reset_render o t h :
  UseAnimationLoop.trace (UseAnimationLoop.setTime t h)
  = (if UseAnimationLoop.surfaceRefs h then [UseAnimationLoop.Render] else [])
    ++ UseAnimationLoop.trace h
  /\ UseAnimationLoop.trace (UseAnimationLoop.reset o h)
  = (if UseAnimationLoop.surfaceRefs h then [UseAnimationLoop.Render] else [])
    ++ UseAnimationLoop.trace h.
Proof.
  unfold UseAnimationLoop.setTime, UseAnimationLoop.reset, UseAnimationLoop.render.
  simpl. destruct (UseAnimationLoop.surfaceRefs h); auto.
Qed.

(** C2 (what the component does).  [setTime(t)] sets the clock to [t],
    writes [t] into the time uniform when it is registered, and leaves the
    play state alone; but it calls no render: the trace and the drawing
    buffer are as before.  Mounted without auto-play, after [setTime(5)]
    the uniform reads 5 while the canvas still shows the frame drawn with
    time 0. *)
Theorem setTime_sets_clock_without_render :
  (forall t w,
      let w' := setTime t w in
      timeRef w' = t
      /\ getUniform "u_time" w' = (fun _ => UNumber t) <$> getUniform "u_time" w
      /\ isPlayingRef w' = isPlayingRef w
      /\ trace w' = trace w
      /\ forall toDataURL, captureFrame toDataURL w' = captureFrame toDataURL w)
  /\ (mount example_props_paused example_dom = Some example_paused
      /\ getUniform "u_time" (setTime 5 example_paused) = Some (UNumber 5)
      /\ isPlayingRef (setTime 5 example_paused) = false
      /\ rendererRef (setTime 5 example_paused) = Some 0%nat
      /\ exists f,
          surfaces (setTime 5 example_paused) !! 0%nat ≫= sf_canvas = Some f
          /\ fr_uniforms f !! "u_time" = Some (UNumber 0)).
Proof.
  split.
  - intros t w w'. subst w'. unfold setTime.
    destruct (refs_assign_material "u_time" (UNumber t) (set_timeRef t w))
      as (Ht & Hp & _ & Hr & Htr).
    split; [exact Ht|].
    split; [exact (getUniform_assign_material _ _ (set_timeRef t w))|].
    split; [exact Hp|]. split; [exact Htr|].
    intros enc. unfold captureFrame. rewrite Hr. simpl.
    destruct (rendererRef w) as [g|]; [|reflexivity].
    f_equal. exact (canvas_assign_material g _ _ (set_timeRef t w)).
  - split; [vm_compute; reflexivity|].
    split; [vm_compute; reflexivity|]. split; [reflexivity|]. split; [reflexivity|].
    eexists. split; vm_compute; reflexivity.
Qed.

(** C4 (what the component does).  [reset()] sets the clock to the
    configured initial value, clears the last-tick reference and writes the
    time uniform when it is registered; but it calls no render.  Mounted
    without auto-play at initial time 0, after [setTime(5)] and [reset()]
    nothing was drawn again. *)
Theorem reset_restores_clock_without_render :
  (forall initialTime w,
      let w' := reset initialTime w in
      timeRef w' = initialTime
      /\ lastTimestampRef w' = None
      /\ getUniform "u_time" w'
         = (fun _ => UNumber initialTime) <$> getUniform "u_time" w
      /\ isPlayingRef w' = isPlayingRef w
      /\ trace w' = trace w
      /\ forall toDataURL, captureFrame toDataURL w' = captureFrame toDataURL w)
  /\ (mount example_props_paused example_dom = Some example_paused
      /\ isPlayingRef example_paused = false
      /\ timeRef (reset (initialTime example_props_paused) (setTime 5 example_paused)) = 0
      /\ trace (reset (initialTime example_props_paused) (setTime 5 example_paused))
         = trace example_paused
      /\ exists f,
          trace example_paused = [Rendered 0 f; Created 0]).
Proof.
  split.
  - intros t0 w w'. subst w'. unfold reset.
    destruct (refs_assign_material "u_time" (UNumber t0)
                (set_lastTimestampRef None (set_timeRef t0 w)))
      as (Ht & Hp & Hl & Hr & Htr).
    split; [exact Ht|]. split; [exact Hl|].
    split; [exact (getUniform_assign_material _ _
                     (set_lastTimestampRef None (set_timeRef t0 w)))|].
    split; [exact Hp|]. split; [exact Htr|].
    intros enc. unfold captureFrame. rewrite Hr. simpl.
    destruct (rendererRef w) as [g|]; [|reflexivity].
    f_equal. exact (canvas_assign_material g _ _
                      (set_lastTimestampRef None (set_timeRef t0 w))).
  - split; [vm_compute; reflexivity|]. split; [reflexivity|].
    split; [reflexivity|]. split; [reflexivity|].
    eexists. vm_compute. reflexivity.
Qed.

End Uniforms.

(** ** Invariants of a mounted component *)

Section Invariants.

Import ShaderCanvas.

(** *** Building blocks *)

Lemma sound_next n w :
  (nextId w <= n)%nat -> sound w -> sound (set_nextId n w).
Proof.
  intros Hn (Hc & Hf & Hcv & He). repeat split; try assumption.
  intros g Hg. simpl. specialize (Hf g Hg). lia.
Qed.

Lemma sound_schedule cb w : sound w -> sound (schedule cb w).
Proof. intros H. apply (sound_next (S (nextId w)) w); [lia | exact H]. Qed.

Lemma sound_cancel id w : sound w -> sound (cancelAnimationFrame id w).
Proof. exact (fun H => H). Qed.

(** Writing back a surface whose canvas is as before. *)
Lemma sound_update g sf sf' w :
  surfaces w !! g = Some sf ->
  sf_canvas sf' = sf_canvas sf ->
  sound w -> sound (set_surfaces (<[g := sf']> (surfaces w)) w).
Proof.
  intros Hg Hsame (Hc & Hf & Hcv & He). repeat split; try assumption; simpl.
  - intros g' Hg'. apply Hf. destruct (decide (g = g')) as [<-|Hne].
    + rewrite Hg. eauto.
    + now rewrite lookup_insert_ne in Hg'.
  - intros g'. destruct (decide (g = g')) as [<-|Hne].
    + rewrite lookup_insert_eq. simpl. rewrite Hsame, <- Hcv, Hg. reflexivity.
    + rewrite lookup_insert_ne by assumption. apply Hcv.
Qed.

(** Tracing a call that is neither a draw call nor [onError]. *)
Lemma sound_emit e w :
  is_error e = false ->
  (forall g tr, last_rendered g (e :: tr) = last_rendered g tr) ->
  sound w -> sound (emit e w).
Proof.
  intros Herr Hlr (Hc & Hf & Hcv & He).
  split; [exact Hc|]. split; [exact Hf|]. split.
  - intros g.
    change (surfaces w !! g ≫= sf_canvas = last_rendered g (e :: trace w)).
    rewrite Hlr. apply Hcv.
  - change (forallb (fun e => negb (is_error e)) (e :: trace w) = true).
    simpl. now rewrite Herr.
Qed.

Lemma sound_call_onFrame cb t d w :
  sound w -> sound (call cb (fun c => OnFrame c t d) w).
Proof. intros H. destruct cb; [|exact H]. now apply sound_emit. Qed.

Lemma sound_call_onResize cb x y w :
  sound w -> sound (call cb (fun c => OnResize c x y) w).
Proof. intros H. destruct cb; [|exact H]. now apply sound_emit. Qed.

Lemma sound_render rd sc w : sound w -> sound (render rd sc w).
Proof.
  intros H. unfold render.
  destruct (surfaces w !! rd) as [target|] eqn:Hrd; [|exact H].
  destruct (surfaces w !! sc) as [drawn|] eqn:Hsc; [|exact H].
  destruct H as (Hc & Hf & Hcv & He). repeat split; try assumption; simpl.
  - intros g Hg. apply Hf. destruct (decide (rd = g)) as [<-|Hne].
    + rewrite Hrd. eauto.
    + now rewrite lookup_insert_ne in Hg.
  - intros g. destruct (Nat.eqb_spec rd g) as [<-|Hne].
    + now rewrite lookup_insert_eq.
    + rewrite lookup_insert_ne by assumption. apply Hcv.
Qed.

Lemma live_update g sf sf' w :
  surfaces w !! g = Some sf ->
  sf_disposed sf' = sf_disposed sf ->
  sf_fragmentShader sf' = sf_fragmentShader sf ->
  live w -> live (set_surfaces (<[g := sf']> (surfaces w)) w).
Proof.
  intros Hg Hd Hfr (r & sf0 & d & Hcl & Hr & Hsc & Hca & Hm & Hme & Hs & Hnd & Hld & Hfs).
  destruct (decide (g = run_surface r)) as [->|Hne].
  - exists r, sf', d. simpl. rewrite lookup_insert_eq.
    rewrite Hg in Hs. injection Hs as ->. rewrite Hd, Hfr. auto 10.
  - exists r, sf0, d. simpl. rewrite lookup_insert_ne by assumption. auto 10.
Qed.

Lemma live_render rd sc w : live w -> live (render rd sc w).
Proof.
  intros H. unfold render.
  destruct (surfaces w !! rd) as [target|] eqn:Hrd; [|exact H].
  destruct (surfaces w !! sc) as [drawn|] eqn:Hsc; [|exact H].
  exact (live_update rd target (sf_set_canvas _ target) w Hrd eq_refl eq_refl H).
Qed.

Lemma preserves_refl w : preserves w w.
Proof. split; auto. Qed.

Lemma preserves_trans w1 w2 w3 : preserves w1 w2 -> preserves w2 w3 -> preserves w1 w3.
Proof. intros [? ?] [? ?]. split; auto. Qed.

Lemma preserves_update g sf sf' w :
  surfaces w !! g = Some sf ->
  sf_canvas sf' = sf_canvas sf ->
  sf_disposed sf' = sf_disposed sf ->
  sf_fragmentShader sf' = sf_fragmentShader sf ->
  preserves w (set_surfaces (<[g := sf']> (surfaces w)) w).
Proof.
  intros. split; [eapply sound_update | eapply live_update]; eassumption.
Qed.

Lemma preserves_render rd sc w : preserves w (render rd sc w).
Proof. split; [apply sound_render | apply live_render]. Qed.

Lemma preserves_schedule cb w : preserves w (schedule cb w).
Proof. split; [apply sound_schedule | exact (fun H => H)]. Qed.

Lemma preserves_onFrame cb t d w : preserves w (call cb (fun c => OnFrame c t d) w).
Proof. split; [apply sound_call_onFrame | destruct cb; exact (fun H => H)]. Qed.

Lemma preserves_onResize cb x y w : preserves w (call cb (fun c => OnResize c x y) w).
Proof. split; [apply sound_call_onResize | destruct cb; exact (fun H => H)]. Qed.

(** *** The operations *)

Lemma preserves_updateSize r dom w w' : updateSize r dom w = Some w' -> preserves w w'.
Proof.
  unfold updateSize. intros H.
  destruct (surfaces w !! run_surface r) as [sf|] eqn:Hs; simpl in H; [|discriminate].
  destruct (assign_vec2 "u_resolution" _ _) as [u|]; simpl in H; [|discriminate].
  injection H as <-.
  eapply preserves_trans; [|apply preserves_onResize].
  exact (preserves_update _ sf (sf_set_uniforms u (sf_set_size _ sf)) w Hs
           eq_refl eq_refl eq_refl).
Qed.

Lemma preserves_animate_effect r t w w' :
  animate_effect r t w = Some w' -> preserves w w'.
Proof.
  unfold animate_effect. destruct (isPlayingRef w); simpl.
  - intros H.
    destruct (surfaces w !! run_surface r) as [sf|] eqn:Hs; simpl in H; [|discriminate].
    destruct (assign_vec2 "u_mouse" _ _) as [u2|]; simpl in H; [|discriminate].
    destruct (assign_vec2 "u_mouseNormalized" _ _) as [u3|]; simpl in H; [|discriminate].
    injection H as <-.
    eapply preserves_trans; [|apply preserves_schedule].
    eapply preserves_trans; [|apply preserves_render].
    eapply preserves_trans; [|apply preserves_onFrame].
    exact (preserves_update _ sf (sf_set_uniforms u3 sf) w Hs eq_refl eq_refl eq_refl).
  - intros [= <-]. exact (preserves_refl w).
Qed.

Lemma preserves_animate_play cb t w : preserves w (animate_play cb t w).
Proof.
  unfold animate_play. destruct (isPlayingRef w); simpl; [|exact (preserves_refl w)].
  destruct (materialRef w) as [m|]; [|exact (preserves_refl w)].
  destruct (rendererRef w) as [rd|]; [|exact (preserves_refl w)].
  destruct (sceneRef w) as [sc|]; [|exact (preserves_refl w)].
  destruct (cameraRef w) as [cam|]; [|exact (preserves_refl w)].
  eapply preserves_trans; [|apply preserves_schedule].
  eapply preserves_trans; [|apply preserves_render].
  eapply preserves_trans; [|apply preserves_onFrame].
  simpl. destruct (surfaces w !! m) as [sf|] eqn:Hs; [|exact (preserves_refl w)].
  exact (preserves_update _ sf (sf_set_uniforms _ sf) w Hs eq_refl eq_refl eq_refl).
Qed.

Lemma preserves_assign_material name v w : preserves w (assign_material name v w).
Proof.
  unfold assign_material.
  destruct (materialRef w) as [m|]; [|exact (preserves_refl w)].
  destruct (surfaces w !! m) as [sf|] eqn:Hs; [|exact (preserves_refl w)].
  destruct (sf_uniforms sf !! name); [|exact (preserves_refl w)].
  exact (preserves_update _ sf (sf_set_uniforms _ sf) w Hs eq_refl eq_refl eq_refl).
Qed.

Lemma preserves_play cb w : preserves w (play cb w).
Proof.
  unfold play. destruct (isPlayingRef w); [exact (preserves_refl w)|].
  exact (preserves_schedule _ (set_lastTimestampRef None (set_isPlayingRef true w))).
Qed.

Lemma preserves_pause w : preserves w (pause w).
Proof. unfold pause. simpl. destruct (rafIdRef w); exact (preserves_refl w). Qed.

(** *** Cleanup and setup *)

Lemma sound_cleanup r w : sound w -> sound (cleanup r w).
Proof.
  intros H. unfold cleanup.
  set (w1 := match rafIdRef w with Some id => cancelAnimationFrame id w | None => w end).
  assert (H1 : sound w1) by (subst w1; destruct (rafIdRef w); exact H).
  clearbody w1. simpl.
  destruct (surfaces w1 !! run_surface r) as [sf|] eqn:Hs; [|exact H1].
  apply (sound_emit (Disposed (run_surface r))); [reflexivity | reflexivity |].
  exact (sound_update _ sf (sf_dispose sf) w1 Hs eq_refl H1).
Qed.

(** What the cleanup of run [r] does to its objects and to the refs. *)
Lemma cleanup_spec r sf w :
  surfaces w !! run_surface r = Some sf ->
  let w' := cleanup r w in
  surfaces w' = <[run_surface r := sf_dispose sf]> (surfaces w)
  /\ trace w' = Disposed (run_surface r) :: trace w
  /\ rendererRef w' = None /\ sceneRef w' = None /\ cameraRef w' = None
  /\ materialRef w' = None /\ meshRef w' = None
  /\ nextId w' = nextId w /\ containerRef w' = containerRef w.
Proof.
  intros Hs. unfold cleanup.
  destruct (rafIdRef w); simpl; rewrite Hs; simpl; auto 10.
Qed.

Lemma sound_create sf w :
  sf_canvas sf = None ->
  sound w ->
  sound (emit (Created (nextId w))
           (set_objectRefs (Some (nextId w))
              (set_nextId (S (nextId w))
                 (set_surfaces (<[nextId w := sf]> (surfaces w)) w)))).
Proof.
  intros Hnone (Hc & Hf & Hcv & He).
  assert (Hfresh : surfaces w !! nextId w = None).
  { destruct (surfaces w !! nextId w) eqn:E; [|reflexivity].
    assert (nextId w < nextId w)%nat by (apply Hf; rewrite E; eauto). lia. }
  split; [exact Hc|]. split; [|split]; simpl.
  - intros g Hg. destruct (decide (nextId w = g)) as [<-|Hne]; [lia|].
    rewrite lookup_insert_ne in Hg by assumption. specialize (Hf g Hg). lia.
  - intros g. destruct (decide (nextId w = g)) as [<-|Hne].
    + rewrite lookup_insert_eq. simpl. rewrite Hnone, <- Hcv, Hfresh. reflexivity.
    + rewrite lookup_insert_ne by assumption. apply Hcv.
  - exact He.
Qed.

Lemma sound_setup p ratio mode dom w w' :
  sound w -> setup p ratio mode dom w = Some w' -> sound w'.
Proof.
  intros H. unfold setup. destruct (containerRef w); simpl; [|intros [= <-]; exact H].
  match goal with |- context [updateSize ?r dom ?w1] =>
    destruct (updateSize r dom w1) as [w2|] eqn:E; simpl; [|discriminate];
    assert (H2 : sound w2) by
      (apply (preserves_updateSize _ _ _ _ E); apply sound_create; [reflexivity | exact H])
  end.
  intros [= <-]. destruct (autoPlay p).
  - exact (sound_schedule _ (set_isPlayingRef true w2) H2).
  - exact (sound_render _ _ w2 H2).
Qed.

(** What a run of the setup effect leaves behind. *)
Lemma setup_spec p ratio mode dom w w' :
  containerRef w = true ->
  setup p ratio mode dom w = Some w' ->
  exists r sf,
    cleanupFn w' = Some r
    /\ run_surface r = nextId w
    /\ rendererRef w' = Some (nextId w) /\ sceneRef w' = Some (nextId w)
    /\ cameraRef w' = Some (nextId w) /\ materialRef w' = Some (nextId w)
    /\ meshRef w' = Some (nextId w)
    /\ surfaces w' !! nextId w = Some sf
    /\ sf_disposed sf = false
    /\ sf_fragmentShader sf = fragmentShader p
    /\ lastDeps w' = lastDeps w
    /\ (forall g, g <> nextId w -> surfaces w' !! g = surfaces w !! g)
    /\ exists events, trace w' = events ++ Created (nextId w) :: trace w.
Proof.
  intros Hc. unfold setup, updateSize. rewrite Hc. simpl.
  rewrite lookup_insert_eq. simpl.
  destruct (assign_vec2 "u_resolution" _ _) as [u|]; simpl; [|discriminate].
  intros [= <-].
  destruct (autoPlay p), (onResize p) as [cb|]; unfold render; simpl;
    rewrite ?lookup_insert_eq; simpl; eexists _, _;
    (split; [reflexivity|]); rewrite ?lookup_insert_eq;
    (repeat split; try reflexivity;
     [ intros g Hg; rewrite !lookup_insert_ne by auto; reflexivity | ]).
  - now eexists [_].
  - now exists [].
  - now eexists [_; _].
  - now eexists [_].
Qed.
(** *** A render of the component *)

(** The render phase touches the memo and may take a fresh object name. *)
Lemma useMemo_pixelRatio_spec p dom w :
  (useMemo_pixelRatio p dom w).2
  = set_pixelRatioMemo (pixelRatioMemo (useMemo_pixelRatio p dom w).2) w.
Proof.
  unfold useMemo_pixelRatio. destruct w. simpl.
  destruct pixelRatioMemo0 as [[pr v]|]; [|reflexivity].
  destruct (same_pixelRatio pr (pixelRatio p)); reflexivity.
Qed.

Lemma size_of_spec p w :
  (nextId w <= nextId (size_of p w).2)%nat
  /\ (size_of p w).2 = set_nextId (nextId (size_of p w).2) w.
Proof.
  unfold size_of. destruct w. simpl.
  destruct (size p) as [[n mode]|]; simpl; split; auto.
Qed.

Lemma render_phase_spec p dom w ratio sizeId mode w1 :
  render_phase p dom w = (ratio, sizeId, mode, w1) ->
  (nextId w <= nextId w1)%nat
  /\ w1 = set_nextId (nextId w1) (set_pixelRatioMemo (pixelRatioMemo w1) w).
Proof.
  unfold render_phase.
  pose proof (useMemo_pixelRatio_spec p dom w) as H0.
  destruct (useMemo_pixelRatio p dom w) as [ratio0 w0]. simpl in H0.
  destruct (size_of_spec p w0) as [Hn H1].
  destruct (size_of p w0) as [[sid m] w1']. simpl in Hn, H1.
  intros [= <- <- <- <-]. rewrite H1, H0. simpl. split; [|reflexivity].
  rewrite H0 in Hn. exact Hn.
Qed.

Lemma render_phase_keeps p dom w ratio sizeId mode w1 :
  render_phase p dom w = (ratio, sizeId, mode, w1) ->
  (sound w -> sound w1) /\ (live w -> live w1)
  /\ cleanupFn w1 = cleanupFn w /\ lastDeps w1 = lastDeps w
  /\ surfaces w1 = surfaces w /\ trace w1 = trace w
  /\ rendererRef w1 = rendererRef w /\ containerRef w1 = containerRef w.
Proof.
  intros H. destruct (render_phase_spec _ _ _ _ _ _ _ H) as [Hn ->].
  split; [intros Hs; exact (sound_next _ _ Hn Hs)|].
  split; [exact (fun Hl => Hl)|].
  repeat split; reflexivity.
Qed.

Lemma commit_invariant p dom w w' :
  invariant w -> commit p dom w = Some w' -> invariant w'.
Proof.
  intros [Hl Hs]. unfold commit.
  destruct (render_phase p dom w) as [[[ratio sizeId] mode] w1] eqn:E.
  destruct (render_phase_keeps _ _ _ _ _ _ _ E)
    as (Hs1 & Hl1 & Hcl & Hld & Hsf & Htr & Hrd & Hco).
  specialize (Hs1 Hs). specialize (Hl1 Hl).
  destruct (deps_changed _ w1); [|intros [= <-]; split; assumption].
  destruct Hl1 as (r & sf & d & Hr & _ & _ & _ & _ & _ & Hsr & _).
  rewrite Hr. intros H.
  assert (Hs2 : sound (set_lastDeps (Some (deps_of p ratio sizeId)) (cleanup r w1)))
    by exact (sound_cleanup r w1 Hs1).
  split; [|exact (sound_setup _ _ _ _ _ _ Hs2 H)].
  apply setup_spec in H; [|exact (proj1 Hs2)].
  destruct H as (r' & sf' & Hcl' & Hrs & ? & ? & ? & ? & ? & Hsf' & ? & Hfr & Hld' & _).
  exists r', sf', (deps_of p ratio sizeId). rewrite Hrs.
  repeat split; assumption.
Qed.

Lemma sound_initial p : sound (initial p).
Proof.
  repeat split; simpl; try reflexivity.
  intros g [sf Hg]. now rewrite lookup_empty in Hg.
Qed.

Lemma mount_invariant p dom w : mount p dom = Some w -> invariant w.
Proof.
  unfold mount, commit.
  destruct (render_phase p dom (initial p)) as [[[ratio sizeId] mode] w1] eqn:E.
  destruct (render_phase_keeps _ _ _ _ _ _ _ E)
    as (Hs1 & _ & Hcl & Hld & _ & _ & _ & Hco).
  specialize (Hs1 (sound_initial p)).
  unfold deps_changed. rewrite Hld, Hcl. simpl. intros H.
  assert (Hs2 : sound (set_lastDeps (Some (deps_of p ratio sizeId)) w1)) by exact Hs1.
  split; [|exact (sound_setup _ _ _ _ _ _ Hs2 H)].
  apply setup_spec in H; [|exact (proj1 Hs2)].
  destruct H as (r' & sf' & Hcl' & Hrs & ? & ? & ? & ? & ? & Hsf' & ? & Hfr & Hld' & _).
  exists r', sf', (deps_of p ratio sizeId). rewrite Hrs.
  repeat split; assumption.
Qed.

Lemma preserves_invariant w w' : preserves w w' -> invariant w -> invariant w'.
Proof. intros [Hs Hl] [? ?]. split; auto. Qed.

Lemma step_invariant w w' : invariant w -> step w w' -> invariant w'.
Proof.
  intros Hinv Hstep. destruct Hstep.
  - eapply commit_invariant; eassumption.
  - destruct cb as [r|cb]; simpl in H0.
    + eapply preserves_invariant; [|exact Hinv].
      exact (preserves_animate_effect _ _ (cancelAnimationFrame id w) _ H0).
    + injection H0 as <-. eapply preserves_invariant; [|exact Hinv].
      exact (preserves_animate_play cb timestamp (cancelAnimationFrame id w)).
  - eapply preserves_invariant; [|exact Hinv].
    eapply preserves_updateSize; eassumption.
  - exact Hinv.
  - eapply preserves_invariant; [apply preserves_play | exact Hinv].
  - eapply preserves_invariant; [apply preserves_pause | exact Hinv].
  - eapply preserves_invariant; [|exact Hinv].
    exact (preserves_assign_material _ _ (set_lastTimestampRef None (set_timeRef t w))).
  - eapply preserves_invariant; [|exact Hinv].
    exact (preserves_assign_material _ _ (set_timeRef t w)).
  - exact Hinv.
  - eapply preserves_invariant; [apply preserves_assign_material | exact Hinv].
Qed.

Lemma reachable_invariant w : reachable w -> invariant w.
Proof.
  induction 1 as [p dom w Hm | w w' _ IH Hstep].
  - eapply mount_invariant; eassumption.
  - eapply step_invariant; eassumption.
Qed.

End Invariants.

(** ** Structural changes *)

Section Structural.

Import ShaderCanvas.





End Structural.

(** ** Shader sources, errors and capture *)

Section Lifecycle.

Import ShaderCanvas.

Lemma mount_material p dom w :
  mount p dom = Some w ->
  exists g sf,
    materialRef w = Some g
    /\ surfaces w !! g = Some sf
    /\ sf_fragmentShader sf = fragmentShader p.
Proof.
  unfold mount, commit.
  destruct (render_phase p dom (initial p)) as [[[ratio sizeId] mode] w1] eqn:E.
  destruct (render_phase_keeps _ _ _ _ _ _ _ E)
    as (_ & _ & Hcl & Hld & _ & _ & _ & Hco).
  unfold deps_changed. rewrite Hld, Hcl. simpl. intros H.
  apply setup_spec in H; [|exact Hco].
  destruct H as (_ & sf & _ & _ & _ & _ & _ & Hm & _ & Hsf & _ & Hfr & _).
  eauto.
Qed.

Lemma no_error_in_trace w :
  sound w -> forall cb, OnError cb ∉ trace w.
Proof.
  intros (_ & _ & _ & He) cb Hin.
  rewrite forallb_forall in He.
  apply list_elem_of_In in Hin. specialize (He _ Hin). discriminate.
Qed.

(** C3 (what the component does).  The material is created from the
    fragment source as given: no check is made, the fallback shader is
    never substituted, and no reachable state has a call of [onError] in
    its trace.  Mounted on a source that is not GLSL, with an [onError]
    callback, the frame that is drawn runs that very source. *)
Theorem fragment_source_unchecked_unreported :
  (forall p dom w,
      mount p dom = Some w ->
      exists g sf,
        materialRef w = Some g
        /\ surfaces w !! g = Some sf
        /\ sf_fragmentShader sf = fragmentShader p)
  /\ (forall w, reachable w -> forall cb, OnError cb ∉ trace w)
  /\ (mount example_props_malformed example_dom = Some example_malformed
      /\ onError example_props_malformed = Some 9%nat
      /\ (exists f,
            last_rendered 0 (trace example_malformed) = Some f
            /\ fr_fragmentShader f = "this is not GLSL"
            /\ fr_fragmentShader f <> FALLBACK_FRAGMENT_SHADER)
      /\ trace example_malformed
         = [Rendered 0 (default (mkFrame "" "" ∅ (mkSize 0 0))
                                (last_rendered 0 (trace example_malformed)));
            Created 0]).
Proof.
  split; [exact mount_material|]. split.
  - intros w Hr. apply no_error_in_trace, (reachable_invariant w Hr).
  - split; [vm_compute; reflexivity|]. split; [reflexivity|]. split.
    + eexists. split; [vm_compute; reflexivity|].
      split; [reflexivity | discriminate].
    + vm_compute. reflexivity.
Qed.

Lemma fragment_source_unchecked_unreported_witness :
  OnError 9 ∉ trace example_malformed.
Proof.
  assert (Hm : mount example_props_malformed example_dom = Some example_malformed)
    by (vm_compute; reflexivity).
  exact (proj1 (proj2 fragment_source_unchecked_unreported)
               example_malformed (reach_mount _ _ _ Hm) 9%nat).
Defined.



End Lifecycle.

(** * Further properties of the code *)

(** ** Colours ([utils/color.ts]) *)

Section ColorFacts.

Import Color.

Lemma in_all_ascii (c : ascii) : In c all_ascii.
Proof.
  unfold all_ascii. rewrite <- (ascii_nat_embedding c).
  apply in_map, in_seq. pose proof (nat_ascii_bounded c). lia.
Qed.

Lemma in_all_bytes (n : Z) : (0 <= n <= 255)%Z -> In n all_bytes.
Proof.
  intros H. unfold all_bytes. rewrite <- (Z2Nat.id n) by lia.
  apply in_map, in_seq. lia.
Qed.

Lemma all_bytes_ok (n : Z) : (0 <= n <= 255)%Z -> byte_ok n = true.
Proof.
  intros H.
  assert (E : forallb byte_ok all_bytes = true) by (vm_compute; reflexivity).
  rewrite forallb_forall in E. apply E, in_all_bytes, H.
Qed.

Lemma all_pairs_ok (c1 c2 : ascii) : pair_ok c1 c2 = true.
Proof.
  assert (E : forallb (fun a => forallb (pair_ok a) all_ascii) all_ascii = true)
    by (vm_compute; reflexivity).
  rewrite forallb_forall in E. specialize (E c1 (in_all_ascii c1)).
  rewrite forallb_forall in E. apply E, in_all_ascii.
Qed.

Lemma hex_pair (c1 c2 : ascii) :
  isHex c1 = true -> isHex c2 = true ->
  exists n,
    parseInt16 (String c1 (String c2 EmptyString)) = Some n
    /\ (0 <= n <= 255)%Z
    /\ hex2 n = String (upperChar c1) (String (upperChar c2) EmptyString).
Proof.
  intros H1 H2. pose proof (all_pairs_ok c1 c2) as H.
  unfold pair_ok in H. rewrite H1, H2 in H. simpl in H.
  apply andb_true_iff in H as [H _].
  destruct (parseInt16 _) as [n|]; [|discriminate].
  apply andb_true_iff in H as [H He]. apply andb_true_iff in H as [Hlo Hhi].
  exists n. split; [reflexivity|]. split; [lia|]. now apply String.eqb_eq.
Qed.

Lemma byte_round (n : Z) :
  (0 <= n <= 255)%Z -> round (clamp (inject_Z n / 255) * 255) = n.
Proof.
  intros H. pose proof (all_bytes_ok n H) as E. unfold byte_ok in E.
  rewrite !andb_true_iff in E. destruct E as [[[E _] _] _]. lia.
Qed.


Lemma toUpperCase_app (s t : string) :
  toUpperCase (s +:+ t) = toUpperCase s +:+ toUpperCase t.
Proof. induction s as [|c s IH]; simpl; [reflexivity | now rewrite IH]. Qed.

Lemma stripHash_hex (c : ascii) (rest : string) :
  isHex c = true -> stripHash (String c rest) = String c rest.
Proof.
  destruct c as [[] [] [] [] [] [] [] []]; try reflexivity; discriminate.
Qed.

Lemma toHex_channel (n : Z) :
  (0 <= n <= 255)%Z -> toUpperCase (toHex (inject_Z n / 255)) = hex2 n.
Proof. intros H. unfold toHex, hex2. now rewrite (byte_round n H). Qed.

Lemma six_digits (h : string) :
  String.length h = 6%nat ->
  allChars isHex h = true ->
  exists n1 n2 n3,
    ((0 <= n1 <= 255) /\ (0 <= n2 <= 255) /\ (0 <= n3 <= 255))%Z
    /\ hexToU h = Some (Some (inject_Z n1 / 255), Some (inject_Z n2 / 255),
                        Some (inject_Z n3 / 255))
    /\ hexToU (String "#" h) = hexToU h
    /\ uToHex (inject_Z n1 / 255, inject_Z n2 / 255, inject_Z n3 / 255)
       = String "#" (toUpperCase h).
Proof.
  intros Hlen Hhex.
  destruct h as [|c1 [|c2 [|c3 [|c4 [|c5 [|c6 [|c7 h]]]]]]]; try discriminate.
  simpl in Hhex. rewrite !andb_true_iff in Hhex.
  destruct Hhex as (H1 & H2 & H3 & H4 & H5 & H6 & _).
  destruct (hex_pair c1 c2 H1 H2) as (n1 & P1 & R1 & U1).
  destruct (hex_pair c3 c4 H3 H4) as (n2 & P2 & R2 & U2).
  destruct (hex_pair c5 c6 H5 H6) as (n3 & P3 & R3 & U3).
  exists n1, n2, n3. split; [auto|].
  assert (E : hexToU (String c1 (String c2 (String c3 (String c4
                (String c5 (String c6 EmptyString))))))
              = Some (Some (inject_Z n1 / 255), Some (inject_Z n2 / 255),
                      Some (inject_Z n3 / 255))).
  { unfold hexToU. rewrite (stripHash_hex c1 _ H1). simpl.
    unfold channel. rewrite P1, P2, P3. reflexivity. }
  split; [exact E|]. split.
  - unfold hexToU at 1. simpl. unfold hexToU. now rewrite (stripHash_hex c1 _ H1).
  - unfold uToHex. simpl. rewrite !toUpperCase_app.
    rewrite !toHex_channel by assumption. now rewrite U1, U2, U3.
Qed.

Lemma three_digits (h : string) :
  String.length h = 3%nat ->
  allChars isHex h = true ->
  String.length (expand3 h) = 6%nat
  /\ allChars isHex (expand3 h) = true
  /\ hexToU h = hexToU (expand3 h)
  /\ hexToU (String "#" h) = hexToU (expand3 h).
Proof.
  intros Hlen Hhex.
  destruct h as [|a [|b [|c [|d h]]]]; try discriminate.
  simpl in Hhex. rewrite !andb_true_iff in Hhex. destruct Hhex as (Ha & Hb & Hc & _).
  split; [reflexivity|]. split; [simpl; now rewrite Ha, Hb, Hc|].
  assert (E : hexToU (String a (String b (String c EmptyString)))
              = hexToU (expand3 (String a (String b (String c EmptyString))))).
  { unfold hexToU.
    rewrite (stripHash_hex a (String b (String c EmptyString)) Ha).
    change (expand3 (String a (String b (String c EmptyString))))
      with (String a (String a (String b (String b (String c (String c EmptyString)))))).
    rewrite (stripHash_hex a (String a (String b (String b (String c
               (String c EmptyString))))) Ha).
    reflexivity. }
  split; [exact E|]. rewrite <- E. unfold hexToU.
  change (stripHash (String "#" (String a (String b (String c EmptyString)))))
    with (String a (String b (String c EmptyString))).
  now rewrite (stripHash_hex a (String b (String c EmptyString)) Ha).
Qed.

(** X1.  Writing the colour that six digits denote gives the digits back,
    in upper case and behind a [#]; three digits are read as the six
    obtained by doubling each; a leading [#] of the input is optional. *)
Theorem uToHex_hexToU (h : string) :
  allChars isHex h = true ->
  (String.length h = 6%nat ->
   exists r g b,
     hexToU h = Some (Some r, Some g, Some b)
     /\ hexToU (String "#" h) = hexToU h
     /\ uToHex (r, g, b) = String "#" (toUpperCase h))
  /\ (String.length h = 3%nat ->
      exists r g b,
        hexToU h = Some (Some r, Some g, Some b)
        /\ hexToU (String "#" h) = hexToU h
        /\ uToHex (r, g, b) = String "#" (toUpperCase (expand3 h))).
Proof.
  intros Hhex. split; intros Hlen.
  - destruct (six_digits h Hlen Hhex) as (n1 & n2 & n3 & _ & E & Eh & U). eauto 10.
  - destruct (three_digits h Hlen Hhex) as (L & A & E3 & Eh3).
    destruct (six_digits _ L A) as (n1 & n2 & n3 & _ & E & _ & U).
    rewrite Eh3, E3, E. eauto 10.
Qed.

Lemma uToHex_hexToU_witness :
  exists r g b,
    hexToU "f98" = Some (Some r, Some g, Some b)
    /\ hexToU "#f98" = hexToU "f98"
    /\ uToHex (r, g, b) = "#FF9988".
Proof. exact (proj2 (uToHex_hexToU "f98" eq_refl) eq_refl). Defined.

(** X2.  For three or six digits, with or without [#], every channel is a
    number between 0 and 1: a byte divided by 255. *)
Theorem hexToU_channels_in_unit_interval (h : string) :
  allChars isHex h = true ->
  String.length h = 3%nat \/ String.length h = 6%nat ->
  exists n1 n2 n3,
    hexToU h = Some (Some (inject_Z n1 / 255), Some (inject_Z n2 / 255),
                     Some (inject_Z n3 / 255))
    /\ hexToU (String "#" h) = hexToU h
    /\ (0 <= inject_Z n1 / 255 <= 1 /\ 0 <= inject_Z n2 / 255 <= 1
        /\ 0 <= inject_Z n3 / 255 <= 1).
Proof.
  assert (Hunit : forall n, (0 <= n <= 255)%Z -> 0 <= inject_Z n / 255 <= 1).
  { intros n [Hlo Hhi]. split.
    - apply Qle_shift_div_l; [reflexivity|].
      rewrite Qmult_0_l. change 0 with (inject_Z 0). now rewrite <- Zle_Qle.
    - apply Qle_shift_div_r; [reflexivity|].
      rewrite Qmult_1_l. change 255 with (inject_Z 255). now rewrite <- Zle_Qle. }
  intros Hhex [Hlen|Hlen].
  - destruct (three_digits h Hlen Hhex) as (L & A & E3 & Eh3).
    destruct (six_digits _ L A) as (n1 & n2 & n3 & (R1 & R2 & R3) & E & _ & _).
    exists n1, n2, n3. rewrite Eh3, E3, E. auto 10.
  - destruct (six_digits h Hlen Hhex) as (n1 & n2 & n3 & (R1 & R2 & R3) & E & Eh & _).
    exists n1, n2, n3. auto 10.
Qed.

Lemma hexToU_channels_in_unit_interval_witness :
  exists n1 n2 n3,
    hexToU "FF9800" = Some (Some (inject_Z n1 / 255), Some (inject_Z n2 / 255),
                            Some (inject_Z n3 / 255))
    /\ hexToU "#FF9800" = hexToU "FF9800"
    /\ (0 <= inject_Z n1 / 255 <= 1 /\ 0 <= inject_Z n2 / 255 <= 1
        /\ 0 <= inject_Z n3 / 255 <= 1).
Proof.
  exact (hexToU_channels_in_unit_interval "FF9800" eq_refl (or_intror eq_refl)).
Defined.

Lemma expand3_length (h : string) :
  String.length h = 3%nat -> String.length (expand3 h) = 6%nat.
Proof. destruct h as [|a [|b [|c [|d h]]]]; try discriminate. reflexivity. Qed.

(** X3.  [hexToU] throws exactly when the input, without its [#], has
    neither three nor six characters.  It does not check the characters:
    six characters of which the first is no digit, sign or white space give
    NaN for red, not an error. *)
Theorem hexToU_throws_on_length_only :
  (forall hex,
      hexToU hex = None
      <-> String.length (stripHash hex) <> 3%nat
          /\ String.length (stripHash hex) <> 6%nat)
  /\ (forall c1 c2 rest,
      String.length rest = 4%nat ->
      isHex c1 = false -> isWhiteSpace c1 = false ->
      c1 <> "+"%char -> c1 <> "-"%char -> c1 <> "#"%char ->
      exists g b, hexToU (String c1 (String c2 rest)) = Some (None, g, b)).
Proof.
  split.
  - intros hex. unfold hexToU.
    destruct (Nat.eqb_spec (String.length (stripHash hex)) 3) as [E3|N3].
    + rewrite (expand3_length _ E3). simpl. split; [discriminate | tauto].
    + destruct (Nat.eqb_spec (String.length (stripHash hex)) 6) as [E6|N6]; simpl.
      * split; [discriminate | tauto].
      * tauto.
  - intros c1 c2 rest Hlen Hhex Hws Hplus Hminus Hhash.
    assert (Hs : stripHash (String c1 (String c2 rest)) = String c1 (String c2 rest)).
    { destruct c1 as [[] [] [] [] [] [] [] []]; try reflexivity. now elim Hhash. }
    destruct rest as [|c3 [|c4 [|c5 [|c6 [|c7 rest]]]]]; try discriminate.
    unfold hexToU. rewrite Hs. simpl.
    pose proof (all_pairs_ok c1 c2) as H. unfold pair_ok in H.
    apply andb_true_iff in H as [_ H]. rewrite Hhex, Hws in H.
    apply Ascii.eqb_neq in Hplus, Hminus. rewrite Hplus, Hminus in H. simpl in H.
    unfold channel at 1. destruct (parseInt16 _); [discriminate|]. simpl. eauto.
Qed.

Lemma hexToU_throws_on_length_only_witness :
  exists g b, hexToU "zz9800" = Some (None, g, b).
Proof.
  refine (proj2 hexToU_throws_on_length_only "z"%char "z"%char "9800"
                eq_refl eq_refl eq_refl _ _ _); discriminate.
Defined.







End ColorFacts.

(** ** Pointer tracking ([useMouseTracking.ts], [handleMouseMove]) *)

Section Pointer.

Lemma pointer_in_range (rect : ShaderCanvas.Rect) (cx cy : Q) :
  0 < ShaderCanvas.rect_width rect -> 0 < ShaderCanvas.rect_height rect ->
  inside rect cx cy ->
  in_range rect
    (cx - ShaderCanvas.left rect,
     ShaderCanvas.rect_height rect - (cy - ShaderCanvas.top rect))
    ((cx - ShaderCanvas.left rect) / ShaderCanvas.rect_width rect,
     1 - (cy - ShaderCanvas.top rect) / ShaderCanvas.rect_height rect).
Proof.
  destruct rect as [l t w h]. unfold inside, in_range. simpl.
  intros Hw Hh [[Hx1 Hx2] [Hy1 Hy2]].
  assert (0 <= (cx - l) / w) by (apply Qle_shift_div_l; lra).
  assert ((cx - l) / w <= 1) by (apply Qle_shift_div_r; lra).
  assert (0 <= (cy - t) / h) by (apply Qle_shift_div_l; lra).
  assert ((cy - t) / h <= 1) by (apply Qle_shift_div_r; lra).
  repeat split; lra.
Qed.


(** X6.  While the pointer is inside a container of positive size, the raw
    position stays within the container's size and the normalised one
    within the unit square; this holds for the hook's mouse handler, for
    its touch handler (which reads the first touch point) and for the
    component's handler. *)
Theorem pointer_inside_stays_in_range (rect : ShaderCanvas.Rect) (cx cy : Q) :
  0 < ShaderCanvas.rect_width rect -> 0 < ShaderCanvas.rect_height rect ->
  inside rect cx cy ->
  (forall h,
      in_range rect
        (UseMouseTracking.mousePosition (UseMouseTracking.handleMouseMove cx cy rect h))
        (UseMouseTracking.mouseNormalized (UseMouseTracking.handleMouseMove cx cy rect h)))
  /\ (forall more h,
      in_range rect
        (UseMouseTracking.mousePosition
           (UseMouseTracking.handleTouchMove ((cx, cy) :: more) rect h))
        (UseMouseTracking.mouseNormalized
           (UseMouseTracking.handleTouchMove ((cx, cy) :: more) rect h)))
  /\ (forall w,
      in_range rect
        (ShaderCanvas.mouseRef (ShaderCanvas.handleMouseMove cx cy rect w))
        (ShaderCanvas.mouseNormalizedRef (ShaderCanvas.handleMouseMove cx cy rect w))).
Proof.
  intros Hw Hh Hin. pose proof (pointer_in_range rect cx cy Hw Hh Hin) as H.
  split; [|split]; intros; exact H.
Qed.

Lemma pointer_inside_stays_in_range_witness :
  in_range (ShaderCanvas.mkRect 10 20 200 100)
    (UseMouseTracking.mousePosition
       (UseMouseTracking.handleMouseMove 60 45 (ShaderCanvas.mkRect 10 20 200 100)
          UseMouseTracking.init))
    (UseMouseTracking.mouseNormalized
       (UseMouseTracking.handleMouseMove 60 45 (ShaderCanvas.mkRect 10 20 200 100)
          UseMouseTracking.init)).
Proof.
  refine (proj1 (pointer_inside_stays_in_range (ShaderCanvas.mkRect 10 20 200 100)
                   60 45 _ _ _) UseMouseTracking.init).
  - reflexivity.
  - reflexivity.
  - unfold inside. simpl. repeat split; discriminate.
Defined.



End Pointer.

(** ** Sizes ([calculateSize], [updateSize]) *)

Section Sizes.

Import UseResizeObserver.

Lemma gt_true (x y : Q) : Js.gt x y = true -> y < x.
Proof.
  unfold Js.gt. intros H. apply negb_true_iff in H.
  apply Qnot_le_lt. intros Hle. apply Qle_bool_iff in Hle. congruence.
Qed.

Lemma gt_false (x y : Q) : Js.gt x y = false -> x <= y.
Proof.
  unfold Js.gt. intros H. apply negb_false_iff in H. now apply Qle_bool_iff.
Qed.

Lemma and_gt_true (m : option Q) (x : Q) :
  Js.and_gt m x = true -> provided m = Some (default 0 m) /\ default 0 m < x.
Proof.
  destruct m as [v|]; simpl; [|discriminate].
  intros H. apply andb_true_iff in H as [Ht Hg].
  rewrite Ht. auto using gt_true.
Qed.

Lemma and_gt_false (m : option Q) (x v : Q) :
  Js.and_gt m x = false -> provided m = Some v -> x <= v.
Proof.
  destruct m as [u|]; simpl; [|discriminate].
  destruct (Js.truthy u); simpl; [|discriminate].
  intros Hg [= <-]. now apply gt_false.
Qed.

(** X8.  For a positive ratio the size computed in [aspect] mode fits the
    container (its measured size, or the window's where that is zero) on
    both axes, and stays within every bound that is provided and not
    zero. *)
Theorem aspect_fits_container_and_bounds ratio maxWidth maxHeight dom :
  0 < ratio ->
  width (calculateSize (Aspect ratio maxWidth maxHeight) dom)
    <= clientWidth dom ||? innerWidth dom
  /\ height (calculateSize (Aspect ratio maxWidth maxHeight) dom)
    <= clientHeight dom ||? innerHeight dom
  /\ (forall m, provided maxWidth = Some m ->
        width (calculateSize (Aspect ratio maxWidth maxHeight) dom) <= m)
  /\ (forall m, provided maxHeight = Some m ->
        height (calculateSize (Aspect ratio maxWidth maxHeight) dom) <= m).
Proof.
  intros Hr. simpl. unfold calculateSize_aspect.
  set (cw := clientWidth dom ||? innerWidth dom).
  set (ch := clientHeight dom ||? innerHeight dom).
  set (mw := default 0 maxWidth). set (mh := default 0 maxHeight).
  assert (Hq : forall x, x / ratio * ratio == x) by (intros; field; lra).
  pose proof (Hq cw) as Ecw. pose proof (Hq mw) as Emw.
  destruct (Js.gt (cw / ratio) ch) eqn:G1;
    [apply gt_true in G1 | apply gt_false in G1];
    match goal with |- context [Js.and_gt maxWidth ?x] =>
      destruct (Js.and_gt maxWidth x) eqn:G2;
        [destruct (and_gt_true _ _ G2) as [Pw Lw]; fold mw in Pw, Lw |]
    end;
    match goal with |- context [Js.and_gt maxHeight ?x] =>
      destruct (Js.and_gt maxHeight x) eqn:G3;
        [destruct (and_gt_true _ _ G3) as [Ph Lh]; fold mh in Ph, Lh |]
    end;
    simpl; (split; [nra | split; [nra | split]]).
  all: try (intros m Hm; rewrite Pw in Hm; injection Hm as <-; nra).
  all: try (intros m Hm; rewrite Ph in Hm; injection Hm as <-; nra).
  all: try (intros m Hm; pose proof (and_gt_false _ _ _ G2 Hm); nra).
  all: try (intros m Hm; pose proof (and_gt_false _ _ _ G3 Hm); nra).
Qed.

Lemma aspect_fits_container_and_bounds_witness :
  width (calculateSize (Aspect 2 (Some 400) (Some 150)) example_dom)
    <= clientWidth example_dom ||? innerWidth example_dom
  /\ height (calculateSize (Aspect 2 (Some 400) (Some 150)) example_dom)
    <= clientHeight example_dom ||? innerHeight example_dom
  /\ (forall m, provided (Some 400) = Some m ->
        width (calculateSize (Aspect 2 (Some 400) (Some 150)) example_dom) <= m)
  /\ (forall m, provided (Some 150) = Some m ->
        height (calculateSize (Aspect 2 (Some 400) (Some 150)) example_dom) <= m).
Proof.
  apply (aspect_fits_container_and_bounds 2 (Some 400) (Some 150) example_dom).
  reflexivity.
Defined.

End Sizes.

(** ** Uniforms ([buildUniforms], [updateSize], [updateUniform]) *)

Section UniformFacts.

Import ShaderCanvas.

(** X9.  In the uniforms the setup builds, a custom entry wins over the
    built-in of the same name; a name without custom entry holds the
    built-in's initial value when its flag is on, and is absent
    otherwise. *)
Theorem buildUniforms_lookup enableTime enableResolution enableMouse custom name :
  buildUniforms enableTime enableResolution enableMouse custom !! name
  = match custom ≫= (fun c => c !! name) with
    | Some v => Some v
    | None => builtin_initial enableTime enableResolution enableMouse name
    end.
Proof.
  assert (Hb : forall name,
             buildUniforms enableTime enableResolution enableMouse None !! name
             = builtin_initial enableTime enableResolution enableMouse name).
  { intros n. unfold buildUniforms, builtin_initial.
    destruct (String.eqb_spec n "u_time") as [->|N1].
    { destruct enableTime, enableResolution, enableMouse; reflexivity. }
    destruct (String.eqb_spec n "u_resolution") as [->|N2].
    { destruct enableTime, enableResolution, enableMouse; reflexivity. }
    destruct (String.eqb_spec n "u_mouse") as [->|N3].
    { destruct enableTime, enableResolution, enableMouse; reflexivity. }
    destruct (String.eqb_spec n "u_mouseNormalized") as [->|N4].
    { destruct enableTime, enableResolution, enableMouse; reflexivity. }
    destruct enableTime, enableResolution, enableMouse; simpl;
      rewrite ?lookup_insert_ne by congruence; apply lookup_empty. }
  destruct custom as [c|]; [|apply Hb].
  change (buildUniforms enableTime enableResolution enableMouse (Some c))
    with (c ∪ buildUniforms enableTime enableResolution enableMouse None).
  simpl. rewrite lookup_union. rewrite Hb.
  destruct (c !! name), (builtin_initial _ _ _ name); reflexivity.
Qed.




Lemma assign_vec2_spec name v u :
  (vec2_or_absent (u !! name) ->
   exists u', assign_vec2 name v u = Some u'
              /\ u' !! name = (fun _ => UVector2 v.1 v.2) <$> u !! name
              /\ forall other, other <> name -> u' !! other = u !! other)
  /\ (forall x, u !! name = Some (UNumber x) -> assign_vec2 name v u = None).
Proof.
  unfold assign_vec2, vec2_or_absent. split.
  - destruct (u !! name) as [[x|x y|hd]|] eqn:E; try contradiction; intros _.
    + eexists. split; [reflexivity|]. split; [now rewrite lookup_insert_eq|].
      intros other Hne. now rewrite lookup_insert_ne by congruence.
    + exists u. rewrite E. auto.
  - intros x ->. reflexivity.
Qed.



End UniformFacts.

(** ** Ticks ([animate]) *)

Section Ticks.

Import ShaderCanvas.

Lemma assign_lookup name v (u : gmap string UniformValue) :
  assign name v u !! name = (fun _ => v) <$> u !! name
  /\ forall other, other <> name -> assign name v u !! other = u !! other.
Proof.
  unfold assign. destruct (u !! name) eqn:E.
  - split; [now rewrite lookup_insert_eq|].
    intros other Hne. now rewrite lookup_insert_ne by congruence.
  - split; [now rewrite E | reflexivity].
Qed.

(** X12.  A tick of the effect's loop that runs while Playing publishes
    one clock value: the new [timeRef] is what it writes into [u_time]
    (over any custom value of that name), what it passes to [onFrame], and
    what the frame it draws afterwards is rendered with; then it requests
    the next frame.  It raises when [u_mouse] holds a number. *)
Theorem tick_publishes_one_clock r t w sf :
  isPlayingRef w = true ->
  surfaces w !! run_surface r = Some sf ->
  (vec2_or_absent (sf_uniforms sf !! "u_mouse") ->
   vec2_or_absent (sf_uniforms sf !! "u_mouseNormalized") ->
   exists w' f,
     animate_effect r t w = Some w'
     /\ timeRef w' = timeRef w + deltaTime_at t w
     /\ trace w'
        = Rendered (run_surface r) f
          :: match run_onFrame r with
             | Some cb => [OnFrame cb (timeRef w') (deltaTime_at t w)]
             | None => []
             end ++ trace w
     /\ fr_uniforms f !! "u_time"
        = (fun _ => UNumber (timeRef w')) <$> sf_uniforms sf !! "u_time"
     /\ surfaces w' !! run_surface r ≫= sf_canvas = Some f
     /\ head (pendingFrames w') = Some (nextId w, AnimateEffect r)
     /\ rafIdRef w' = Some (nextId w))
  /\ (forall x,
      sf_uniforms sf !! "u_mouse" = Some (UNumber x) ->
      animate_effect r t w = None).
Proof.
  intros Hp Hs.
  destruct (assign_lookup "u_time" (UNumber (timeRef w + deltaTime_at t w))
              (sf_uniforms sf)) as [Ht Hto].
  split.
  - intros Hm Hn. unfold animate_effect. rewrite Hp. simpl. rewrite Hs. simpl.
    rewrite <- (Hto "u_mouse") in Hm by discriminate.
    match goal with |- context [assign_vec2 "u_mouse" ?v ?u] =>
      destruct (proj1 (assign_vec2_spec "u_mouse" v u) Hm) as (u2 & -> & _ & H2)
    end.
    simpl.
    rewrite <- (Hto "u_mouseNormalized"), <- (H2 "u_mouseNormalized") in Hn
      by discriminate.
    match goal with |- context [assign_vec2 "u_mouseNormalized" ?v ?u] =>
      destruct (proj1 (assign_vec2_spec "u_mouseNormalized" v u) Hn)
        as (u3 & -> & _ & H3)
    end.
    simpl.
    assert (Hu : u3 !! "u_time"
                 = (fun _ => UNumber (timeRef w + deltaTime_at t w))
                     <$> sf_uniforms sf !! "u_time").
    { rewrite H3, H2 by discriminate. exact Ht. }
    unfold render.
    destruct (run_onFrame r) as [cb|]; simpl; rewrite lookup_insert_eq; simpl;
      eexists _, _; (split; [reflexivity|]); simpl;
      rewrite ?lookup_insert_eq; simpl; repeat split; auto.
  - intros x Hx. unfold animate_effect. rewrite Hp. simpl. rewrite Hs. simpl.
    rewrite (proj2 (assign_vec2_spec "u_mouse" _ _) x); [reflexivity|].
    now rewrite Hto by discriminate.
Qed.

Lemma tick_publishes_one_clock_witness :
  exists w' f,
    animate_effect (mkRun 0 Fill 1 true None None) 1000 example_mounted = Some w'
    /\ timeRef w' = timeRef example_mounted
                    + deltaTime_at 1000 example_mounted
    /\ surfaces w' !! 0%nat ≫= sf_canvas = Some f.
Proof.
  assert (Hs : exists sf,
             surfaces example_mounted !! 0%nat = Some sf
             /\ vec2_or_absent (sf_uniforms sf !! "u_mouse")
             /\ vec2_or_absent (sf_uniforms sf !! "u_mouseNormalized")).
  { eexists. split; [vm_compute; reflexivity | split; exact I]. }
  destruct Hs as (sf & Hs & Hm & Hn).
  destruct (proj1 (tick_publishes_one_clock (mkRun 0 Fill 1 true None None) 1000
                     example_mounted sf eq_refl Hs) Hm Hn)
    as (w' & f & E & Ht & _ & _ & Hc & _).
  exists w', f. auto.
Defined.






(** X14.  With [autoPlay] the hook's start effect requests no frame and
    draws nothing: [isPlayingRef] starts out true, so the [play()] it calls
    returns at once.  The loop starts only after a [pause()] and a
    [play()].  Without [autoPlay] the effect draws one frame when the
    scene is ready. *)
Theorem hook_autoplay_requests_no_frame o surface :
  (UseAnimationLoop.autoPlay o = true ->
   UseAnimationLoop.start o true (UseAnimationLoop.init o surface)
   = UseAnimationLoop.init o surface
   /\ UseAnimationLoop.rafIdRef
        (UseAnimationLoop.start o true (UseAnimationLoop.init o surface)) = None)
  /\ (forall h,
      UseAnimationLoop.rafIdRef (UseAnimationLoop.play (UseAnimationLoop.pause h))
      = Some (UseAnimationLoop.nextFrameId h))
  /\ (UseAnimationLoop.autoPlay o = false ->
      UseAnimationLoop.trace
        (UseAnimationLoop.start o true (UseAnimationLoop.init o surface))
      = if surface then [UseAnimationLoop.Render] else []).
Proof.
  split; [|split].
  - intros Ha. unfold UseAnimationLoop.start, UseAnimationLoop.play,
      UseAnimationLoop.init. simpl. rewrite Ha. simpl. rewrite ?Ha. auto.
  - intros h. unfold UseAnimationLoop.play, UseAnimationLoop.pause.
    destruct (UseAnimationLoop.rafIdRef h); reflexivity.
  - intros Ha. unfold UseAnimationLoop.start, UseAnimationLoop.render,
      UseAnimationLoop.init. simpl. rewrite Ha. simpl. rewrite ?Ha.
    now destruct surface.
Qed.

Lemma hook_autoplay_requests_no_frame_witness :
  UseAnimationLoop.start example_options true
    (UseAnimationLoop.init example_options true)
  = UseAnimationLoop.init example_options true
  /\ UseAnimationLoop.rafIdRef
       (UseAnimationLoop.start example_options true
          (UseAnimationLoop.init example_options true)) = None.
Proof.
  exact (proj1 (hook_autoplay_requests_no_frame example_options true) eq_refl).
Defined.

End Ticks.

(** ** Frames, listeners and objects of a mounted component *)

Section Tidy.

Import ShaderCanvas.

Lemma quiet_refl w : quiet w w.
Proof. unfold quiet. auto 10. Qed.

Lemma quiet_trans w1 w2 w3 : quiet w1 w2 -> quiet w2 w3 -> quiet w1 w3.
Proof.
  intros (A1 & A2 & A3 & A4 & A5 & A6 & A7 & A8 & A9)
         (B1 & B2 & B3 & B4 & B5 & B6 & B7 & B8 & B9).
  unfold quiet. do 7 (split; [congruence|]). split; [lia|].
  intros g. now rewrite B9.
Qed.

Lemma quiet_update g sf sf' w :
  surfaces w !! g = Some sf ->
  flags sf' = flags sf ->
  quiet w (set_surfaces (<[g := sf']> (surfaces w)) w).
Proof.
  intros Hs Hf. unfold quiet. simpl. repeat split; auto.
  intros g'. destruct (decide (g = g')) as [<-|Hne].
  - rewrite lookup_insert_eq, Hs. simpl. now rewrite Hf.
  - now rewrite lookup_insert_ne.
Qed.

Lemma quiet_render rd sc w : quiet w (render rd sc w).
Proof.
  unfold render.
  destruct (surfaces w !! rd) as [target|] eqn:Hrd; [|apply quiet_refl].
  destruct (surfaces w !! sc) as [drawn|]; [|apply quiet_refl].
  exact (quiet_update rd target (sf_set_canvas _ target) w Hrd eq_refl).
Qed.

Lemma quiet_call cb e w : quiet w (call cb e w).
Proof. destruct cb; exact (quiet_refl w). Qed.

Lemma quiet_updateSize r dom w w' : updateSize r dom w = Some w' -> quiet w w'.
Proof.
  unfold updateSize. intros H.
  destruct (surfaces w !! run_surface r) as [sf|] eqn:Hs; simpl in H; [|discriminate].
  destruct (assign_vec2 "u_resolution" _ _) as [u|]; simpl in H; [|discriminate].
  injection H as <-.
  eapply quiet_trans; [|apply quiet_call].
  exact (quiet_update _ sf (sf_set_uniforms u (sf_set_size _ sf)) w Hs eq_refl).
Qed.

Lemma quiet_assign_material name v w : quiet w (assign_material name v w).
Proof.
  unfold assign_material.
  destruct (materialRef w) as [m|]; [|apply quiet_refl].
  destruct (surfaces w !! m) as [sf|] eqn:Hs; [|apply quiet_refl].
  destruct (sf_uniforms sf !! name); [|apply quiet_refl].
  exact (quiet_update _ sf (sf_set_uniforms _ sf) w Hs eq_refl).
Qed.

(** A tick either does nothing or, while Playing, works quietly and then
    requests the next frame. *)
Lemma animate_effect_quiet r t w w' :
  animate_effect r t w = Some w' ->
  w' = w
  \/ (isPlayingRef w = true
      /\ exists w1, quiet w w1 /\ w' = schedule (AnimateEffect r) w1).
Proof.
  unfold animate_effect. destruct (isPlayingRef w) eqn:Hp; simpl.
  - intros H. right. split; [reflexivity|].
    destruct (surfaces w !! run_surface r) as [sf|] eqn:Hs; simpl in H; [|discriminate].
    destruct (assign_vec2 "u_mouse" _ _) as [u2|]; simpl in H; [|discriminate].
    destruct (assign_vec2 "u_mouseNormalized" _ _) as [u3|]; simpl in H; [|discriminate].
    injection H as <-. eexists. split; [|reflexivity].
    eapply quiet_trans; [|apply quiet_render].
    eapply quiet_trans; [|apply quiet_call].
    exact (quiet_update _ sf (sf_set_uniforms u3 sf) w Hs eq_refl).
  - intros [= <-]. now left.
Qed.

Lemma animate_play_quiet cb t w :
  animate_play cb t w = w
  \/ (isPlayingRef w = true
      /\ exists w1, quiet w w1 /\ animate_play cb t w = schedule (AnimatePlay cb) w1).
Proof.
  unfold animate_play. destruct (isPlayingRef w) eqn:Hp; simpl; [|now left].
  destruct (materialRef w) as [m|]; [|now left].
  destruct (rendererRef w) as [rd|]; [|now left].
  destruct (sceneRef w) as [sc|]; [|now left].
  destruct (cameraRef w) as [cam|]; [|now left].
  right. split; [reflexivity|]. eexists. split; [|reflexivity].
  eapply quiet_trans; [|apply quiet_render].
  eapply quiet_trans; [|apply quiet_call].
  simpl. destruct (surfaces w !! m) as [sf|] eqn:Hs; [|exact (quiet_refl w)].
  exact (quiet_update _ sf (sf_set_uniforms _ sf) w Hs eq_refl).
Qed.

Lemma tidy_quiet w w' : tidy w -> quiet w w' -> tidy w'.
Proof.
  intros (Hp & Hl & Ho & Hd) (Q1 & Q2 & Q3 & Q4 & Q5 & Q6 & Q7 & Q8 & Q9).
  split; [|split; [|split]].
  - unfold one_pending. rewrite Q1, Q2, Q3. exact Hp.
  - unfold own_listeners. rewrite Q4, Q5, Q7. exact Hl.
  - intros g sf' Hs Hr. rewrite Q6 in Hr. specialize (Q9 g). rewrite Hs in Q9.
    destruct (surfaces w !! g) as [sf|] eqn:E; [|discriminate].
    simpl in Q9. assert (Hf : flags sf' = flags sf) by congruence.
    rewrite Hf. exact (Ho g sf E Hr).
  - intros d n Hld Hn. rewrite Q7 in Hld. specialize (Hd d n Hld Hn). lia.
Qed.

Lemma tidy_reschedule cb w :
  tidy w -> pendingFrames w = [] -> isPlayingRef w = true -> tidy (schedule cb w).
Proof.
  intros (Hp & Hl & Ho & Hd) Hnone Hplay. split; [|split; [|split]].
  - split; simpl.
    + right. exists (nextId w), cb. now rewrite Hnone.
    + congruence.
  - exact Hl.
  - exact Ho.
  - intros d n Hld Hn. specialize (Hd d n Hld Hn). simpl. lia.
Qed.

Lemma tidy_playing w : tidy w -> tidy (set_isPlayingRef true w).
Proof.
  intros ((Hp & _) & Hl & Ho & Hd). split; [|split; [|split]]; try assumption.
  split; [exact Hp | discriminate].
Qed.

Lemma cancel_only (id : nat) (cb : Callback) :
  filter (fun p : nat * Callback => p.1 ≠ id) [(id, cb)] = [].
Proof.
  rewrite filter_cons. simpl.
  destruct (decide (id ≠ id)) as [Hne|_]; [now elim Hne | apply filter_nil].
Qed.

Lemma pending_cancelled w :
  one_pending w ->
  match rafIdRef w with
  | Some id => pendingFrames (cancelAnimationFrame id w)
  | None => pendingFrames w
  end = [].
Proof.
  intros [[Hn|(id & cb & Hone & Hr)] _].
  - destruct (rafIdRef w); simpl; now rewrite Hn.
  - rewrite Hr. simpl. rewrite Hone. apply cancel_only.
Qed.

Lemma tidy_pause w : tidy w -> tidy (pause w) /\ pendingFrames (pause w) = [].
Proof.
  intros (Hp & Hl & Ho & Hd).
  assert (Hnone : pendingFrames (pause w) = []).
  { pose proof (pending_cancelled w Hp) as H. unfold pause. simpl.
    destruct (rafIdRef w); exact H. }
  split; [|exact Hnone].
  split; [|split; [|split]].
  - split; [now left | intros _; exact Hnone].
  - unfold pause. simpl. destruct (rafIdRef w); exact Hl.
  - unfold pause. simpl. destruct (rafIdRef w); exact Ho.
  - unfold pause. simpl. destruct (rafIdRef w); exact Hd.
Qed.

Lemma tidy_play cb w : tidy w -> tidy (play cb w).
Proof.
  intros H. unfold play. destruct (isPlayingRef w) eqn:Hp; [exact H|].
  apply (tidy_reschedule (AnimatePlay cb)
           (set_lastTimestampRef None (set_isPlayingRef true w))).
  - exact (tidy_playing w H).
  - exact (proj2 (proj1 H) Hp).
  - reflexivity.
Qed.

Lemma tidy_frame id cb t w w' :
  tidy w ->
  (id, cb) ∈ pendingFrames w ->
  run_callback cb t (cancelAnimationFrame id w) = Some w' ->
  tidy w'.
Proof.
  intros H Hin Hrun.
  assert (H0 : tidy (cancelAnimationFrame id w)
               /\ pendingFrames (cancelAnimationFrame id w) = []).
  { destruct H as (Hp & Hl & Ho & Hd).
    assert (Hnone : pendingFrames (cancelAnimationFrame id w) = []).
    { destruct Hp as [[Hn|(id' & cb' & Hone & Hr)] _].
      - rewrite Hn in Hin. now apply elem_of_nil in Hin.
      - rewrite Hone in Hin. apply list_elem_of_singleton in Hin.
        injection Hin as -> ->. simpl. rewrite Hone. apply cancel_only. }
    split; [|exact Hnone].
    split; [|split; [|split]]; try assumption.
    split; [now left | intros _; exact Hnone]. }
  destruct H0 as [H0 Hnone].
  destruct cb as [r|cb]; simpl in Hrun.
  - destruct (animate_effect_quiet r t _ w' Hrun) as [->|(Hp & w1 & Hq & ->)];
      [exact H0|].
    apply tidy_reschedule.
    + exact (tidy_quiet _ _ H0 Hq).
    + destruct Hq as (-> & _). exact Hnone.
    + destruct Hq as (_ & _ & -> & _). exact Hp.
  - injection Hrun as <-.
    destruct (animate_play_quiet cb t (cancelAnimationFrame id w))
      as [->|(Hp & w1 & Hq & ->)]; [exact H0|].
    apply tidy_reschedule.
    + exact (tidy_quiet _ _ H0 Hq).
    + destruct Hq as (-> & _). exact Hnone.
    + destruct Hq as (_ & _ & -> & _). exact Hp.
Qed.

(** *** Renders *)

Lemma render_phase_size p dom w ratio sizeId mode w1 :
  render_phase p dom w = (ratio, sizeId, mode, w1) ->
  (forall n, sizeId = Fresh n -> (n < nextId w1)%nat)
  /\ (size p = None -> sizeId = Fresh (nextId w)).
Proof.
  unfold render_phase.
  pose proof (useMemo_pixelRatio_spec p dom w) as H0.
  destruct (useMemo_pixelRatio p dom w) as [ratio0 w0]. simpl in H0.
  assert (Hn : nextId w0 = nextId w) by now rewrite H0.
  unfold size_of. destruct (size p) as [[k m]|]; intros [= <- <- <- <-].
  - split; [discriminate | discriminate].
  - split; [|now rewrite Hn]. intros n [= <-]. simpl. lia.
Qed.

Lemma quiet_render_phase p dom w ratio sizeId mode w1 :
  render_phase p dom w = (ratio, sizeId, mode, w1) -> quiet w w1.
Proof.
  intros H. destruct (render_phase_spec _ _ _ _ _ _ _ H) as [Hn ->].
  unfold quiet. simpl. auto 10.
Qed.

Lemma cleanup_fields r w :
  pendingFrames (cleanup r w)
  = match rafIdRef w with
    | Some id => pendingFrames (cancelAnimationFrame id w)
    | None => pendingFrames w
    end
  /\ listeners (cleanup r w)
     = List.filter
         (fun l => match l with
                   | MouseMove r' =>
                       negb (run_enableMouse r && Nat.eqb (run_surface r') (run_surface r))
                   | Resize r' => negb (Nat.eqb (run_surface r') (run_surface r))
                   end)
         (listeners w)
  /\ lastDeps (cleanup r w) = lastDeps w.
Proof.
  unfold cleanup. destruct (rafIdRef w); simpl;
    match goal with |- context [surfaces ?x !! ?g] =>
      destruct (surfaces x !! g) end; auto.
Qed.

Lemma own_listeners_removed r :
  List.filter
    (fun l => match l with
              | MouseMove r' =>
                  negb (run_enableMouse r && Nat.eqb (run_surface r') (run_surface r))
              | Resize r' => negb (Nat.eqb (run_surface r') (run_surface r))
              end)
    (listeners_of r) = [].
Proof.
  unfold listeners_of. destruct (run_enableMouse r) eqn:E; simpl;
    rewrite ?E, Nat.eqb_refl; reflexivity.
Qed.

(** What a run of the setup effect registers and requests. *)
Lemma setup_fields p ratio mode dom w w' :
  containerRef w = true ->
  setup p ratio mode dom w = Some w' ->
  cleanupFn w'
  = Some (mkRun (nextId w) mode ratio (enableMouseUniform p) (onFrame p) (onResize p))
  /\ listeners w'
     = listeners w
       ++ listeners_of (mkRun (nextId w) mode ratio (enableMouseUniform p)
                              (onFrame p) (onResize p))
  /\ (nextId w < nextId w')%nat
  /\ (if autoPlay p
      then pendingFrames w'
           = (S (nextId w),
              AnimateEffect (mkRun (nextId w) mode ratio (enableMouseUniform p)
                                   (onFrame p) (onResize p)))
             :: pendingFrames w
           /\ rafIdRef w' = Some (S (nextId w))
           /\ isPlayingRef w' = true
      else pendingFrames w' = pendingFrames w
           /\ rafIdRef w' = rafIdRef w
           /\ isPlayingRef w' = isPlayingRef w).
Proof.
  intros Hc. unfold setup, updateSize. rewrite Hc. simpl.
  rewrite lookup_insert_eq. simpl.
  destruct (assign_vec2 "u_resolution" _ _) as [u|]; simpl; [|discriminate].
  intros [= <-]. unfold listeners_of.
  destruct (autoPlay p), (onResize p) as [cb|]; unfold render; simpl;
    rewrite ?lookup_insert_eq; simpl; auto 10.
Qed.

(** A run of the setup effect on a world without frames, listeners or
    undisposed surfaces leaves a tidy one. *)
Lemma setup_tidy p ratio mode dom w w' d :
  containerRef w = true ->
  pendingFrames w = [] ->
  listeners w = [] ->
  lastDeps w = Some d ->
  d_enableMouseUniform d = enableMouseUniform p ->
  deps_known w ->
  (forall g sf, surfaces w !! g = Some sf -> flags sf = (true, false)) ->
  setup p ratio mode dom w = Some w' ->
  tidy w'.
Proof.
  intros Hc Hp Hl Hd Hm Hk Hall H.
  destruct (setup_fields _ _ _ _ _ _ Hc H) as (Fc & Fl & Fn & Fa).
  destruct (setup_spec _ _ _ _ _ _ Hc H)
    as (r' & sf' & _ & _ & Rr & _ & _ & _ & _ & _ & _ & _ & Rld & Rother & _).
  split; [|split; [|split]].
  - destruct (autoPlay p).
    + destruct Fa as (Fp & Fr & Fi). rewrite Hp in Fp. split.
      * right. eauto.
      * congruence.
    + destruct Fa as (Fp & Fr & Fi). rewrite Hp in Fp. split; [now left | auto].
  - eexists _, d. split; [exact Fc|]. split; [congruence|].
    split; [now rewrite Hm|]. now rewrite Fl, Hl.
  - intros g sf Hs Hr. rewrite Rr in Hr.
    rewrite Rother in Hs by congruence. exact (Hall g sf Hs).
  - intros d0 n Hld Hn. rewrite Rld in Hld. specialize (Hk d0 n Hld Hn). lia.
Qed.

Lemma tidy_mount p dom w : mount p dom = Some w -> tidy w.
Proof.
  unfold mount, commit.
  destruct (render_phase p dom (initial p)) as [[[ratio sizeId] mode] w1] eqn:E.
  destruct (render_phase_keeps _ _ _ _ _ _ _ E)
    as (_ & _ & Hcl & Hld & Hsf & _ & _ & Hco).
  destruct (quiet_render_phase _ _ _ _ _ _ _ E) as (Qp & _ & _ & Ql & _).
  destruct (render_phase_size _ _ _ _ _ _ _ E) as [Hfresh _].
  unfold deps_changed. rewrite Hld, Hcl. simpl. intros H.
  eapply (setup_tidy p ratio mode dom _ w (deps_of p ratio sizeId)); try exact H;
    try reflexivity.
  - exact Hco.
  - exact Qp.
  - exact Ql.
  - intros d n [= <-] Hn. exact (Hfresh n Hn).
  - intros g sf Hs. change (surfaces w1 !! g = Some sf) in Hs. rewrite Hsf in Hs.
    change ((∅ : gmap nat Surface) !! g = Some sf) in Hs.
    now rewrite lookup_empty in Hs.
Qed.

Lemma tidy_commit p dom w w' :
  invariant w -> tidy w -> commit p dom w = Some w' -> tidy w'.
Proof.
  intros [Hlive Hsound] Ht. unfold commit.
  destruct (render_phase p dom w) as [[[ratio sizeId] mode] w1] eqn:E.
  pose proof (tidy_quiet _ _ Ht (quiet_render_phase _ _ _ _ _ _ _ E)) as Ht1.
  destruct (render_phase_keeps _ _ _ _ _ _ _ E)
    as (Hs1 & Hl1 & Hcl & Hld & Hsf & Htr & Hrd & Hco).
  specialize (Hs1 Hsound). specialize (Hl1 Hlive).
  destruct (render_phase_size _ _ _ _ _ _ _ E) as [Hfresh _].
  destruct (deps_changed _ w1); [|intros [= <-]; exact Ht1].
  destruct Hl1 as (r & sf & d & Hr & Hrr & _ & _ & _ & _ & Hsr & _).
  rewrite Hr. intros H.
  destruct Ht1 as (Hp1 & (r0 & d0 & Hr0 & _ & _ & Hlist) & Ho1 & Hd1).
  assert (r0 = r) by congruence. subst r0.
  destruct (cleanup_spec r sf w1 Hsr) as (Cs & _ & Crd & _ & _ & _ & _ & Cn & Cc).
  destruct (cleanup_fields r w1) as (Cp & Cl & Cd).
  eapply (setup_tidy p ratio mode dom _ w' (deps_of p ratio sizeId)); try exact H;
    try reflexivity.
  - change (containerRef (cleanup r w1) = true). rewrite Cc. exact (proj1 Hs1).
  - change (pendingFrames (cleanup r w1) = []). rewrite Cp.
    exact (pending_cancelled w1 Hp1).
  - change (listeners (cleanup r w1) = []). rewrite Cl, Hlist.
    apply own_listeners_removed.
  - intros d' n [= <-] Hn. change (n < nextId (cleanup r w1))%nat.
    rewrite Cn. exact (Hfresh n Hn).
  - intros g sf0 Hs. change (surfaces (cleanup r w1) !! g = Some sf0) in Hs.
    rewrite Cs in Hs. destruct (decide (run_surface r = g)) as [<-|Hne].
    + rewrite lookup_insert_eq in Hs. now injection Hs as <-.
    + rewrite lookup_insert_ne in Hs by assumption.
      apply (Ho1 g sf0 Hs). congruence.
Qed.

Lemma tidy_step w w' : invariant w -> tidy w -> step w w' -> tidy w'.
Proof.
  intros Hinv Ht Hstep. destruct Hstep.
  - eapply tidy_commit; eassumption.
  - eapply tidy_frame; eassumption.
  - eapply tidy_quiet; [exact Ht|]. eapply quiet_updateSize; eassumption.
  - exact Ht.
  - now apply tidy_play.
  - now apply tidy_pause.
  - eapply tidy_quiet; [exact Ht|].
    exact (quiet_assign_material _ _ (set_lastTimestampRef None (set_timeRef t w))).
  - eapply tidy_quiet; [exact Ht|].
    exact (quiet_assign_material _ _ (set_timeRef t w)).
  - exact Ht.
  - eapply tidy_quiet; [exact Ht|]. apply quiet_assign_material.
Qed.

Lemma reachable_tidy w : reachable w -> tidy w.
Proof.
  induction 1 as [p dom w Hm | w w' Hr IH Hstep].
  - eapply tidy_mount; eassumption.
  - eapply tidy_step; [exact (reachable_invariant w Hr) | exact IH | exact Hstep].
Qed.


Lemma example_mounted_reachable : reachable example_mounted.
Proof.
  apply (reach_mount example_props example_dom). vm_compute. reflexivity.
Defined.


(** X16.  The listeners of a mounted component are those of the last run
    of the setup effect: one [resize] listener on the window and, exactly
    when [enableMouseUniform] was on in that run, one [mousemove] listener
    on the container. *)
Theorem listeners_are_the_live_runs w :
  reachable w ->
  exists r d,
    cleanupFn w = Some r
    /\ rendererRef w = Some (run_surface r)
    /\ lastDeps w = Some d
    /\ listeners w
       = (if d_enableMouseUniform d then [MouseMove r] else []) ++ [Resize r].
Proof.
  intros Hr.
  destruct (reachable_invariant w Hr) as [(r0 & sf & d0 & Hc0 & Hrd & _) _].
  destruct (reachable_tidy w Hr) as (_ & (r & d & Hc & Hd & Hm & Hl) & _).
  assert (r0 = r) by congruence. subst r0.
  exists r, d. unfold listeners_of in Hl. rewrite Hm in Hl. auto.
Qed.

Lemma listeners_are_the_live_runs_witness :
  exists r d,
    cleanupFn example_rerendered = Some r
    /\ rendererRef example_rerendered = Some (run_surface r)
    /\ lastDeps example_rerendered = Some d
    /\ listeners example_rerendered
       = (if d_enableMouseUniform d then [MouseMove r] else []) ++ [Resize r].
Proof.
  apply listeners_are_the_live_runs.
  apply (reach_step example_mounted); [exact example_mounted_reachable|].
  apply (step_commit example_props_no_pointer example_dom).
  vm_compute. reflexivity.
Defined.



Lemma same_deps_size a b :
  same_deps a b = true -> same_object (d_size a) (d_size b) = true.
Proof.
  unfold same_deps. rewrite !andb_true_iff. tauto.
Qed.

(** What a render leaves when the setup effect runs again. *)
Lemma commit_rerun p dom w w' ratio sizeId mode w1 g :
  invariant w ->
  render_phase p dom w = (ratio, sizeId, mode, w1) ->
  deps_changed (deps_of p ratio sizeId) w1 = true ->
  commit p dom w = Some w' ->
  rendererRef w = Some g ->
  (exists sf, surfaces w' !! g = Some sf
              /\ sf_disposed sf = true /\ sf_attached sf = false)
  /\ exists g' events,
      g' <> g
      /\ rendererRef w' = Some g'
      /\ trace w' = events ++ Created g' :: Disposed g :: trace w.
Proof.
  intros [Hl Hs] E Hch. unfold commit. rewrite E, Hch.
  destruct (render_phase_keeps _ _ _ _ _ _ _ E)
    as (Hs1 & Hl1 & Hcl & Hld & Hsf & Htr & Hrd & Hco).
  specialize (Hs1 Hs). specialize (Hl1 Hl).
  destruct Hl1 as (r & sf & d0 & Hr & Hrr & _ & _ & _ & _ & Hsr & _).
  rewrite Hr. intros H Hg.
  assert (Hgr : run_surface r = g) by congruence.
  destruct (cleanup_spec r sf w1 Hsr) as (Cs & Ct & _ & _ & _ & _ & _ & Cn & Cc).
  set (ws := set_lastDeps (Some (deps_of p ratio sizeId)) (cleanup r w1)) in H.
  change (surfaces ws = <[run_surface r := sf_dispose sf]> (surfaces w1)) in Cs.
  change (trace ws = Disposed (run_surface r) :: trace w1) in Ct.
  change (nextId ws = nextId w1) in Cn.
  change (containerRef ws = containerRef w1) in Cc.
  clearbody ws.
  apply setup_spec in H; [|rewrite Cc; exact (proj1 Hs1)].
  rewrite Cn in H.
  destruct H as (r' & sf' & _ & _ & Rr & _ & _ & _ & _ & _ & _ & _ & _
                 & Rother & events & Rtr).
  assert (Hlt : (g < nextId w1)%nat).
  { apply (proj1 (proj2 Hs1)). rewrite <- Hgr, Hsr. eauto. }
  split.
  - exists (sf_dispose sf). rewrite Rother by lia. rewrite Cs, Hgr.
    rewrite lookup_insert_eq. auto.
  - exists (nextId w1), events. rewrite Rtr, Ct, Htr, Hgr.
    repeat split; try assumption. lia.
Qed.

(** X18.  When the [size] prop is left out, every render of a mounted
    component runs the setup effect again: the default [{ mode: 'fill' }]
    is a new object each time and the dependency is compared by identity.
    The surface is disposed and a new one created, whatever else the props
    say. *)
Theorem default_size_recreates_surface_every_render p dom w w' g :
  reachable w ->
  size p = None ->
  commit p dom w = Some w' ->
  rendererRef w = Some g ->
  (exists sf, surfaces w' !! g = Some sf
              /\ sf_disposed sf = true /\ sf_attached sf = false)
  /\ exists g' events,
      g' <> g
      /\ rendererRef w' = Some g'
      /\ trace w' = events ++ Created g' :: Disposed g :: trace w.
Proof.
  intros Hr Hsize Hc Hg.
  pose proof (reachable_invariant w Hr) as Hinv.
  destruct (reachable_tidy w Hr) as (_ & (r & d & _ & Hd & _) & _ & Hk).
  destruct (render_phase p dom w) as [[[ratio sizeId] mode] w1] eqn:E.
  destruct (render_phase_size _ _ _ _ _ _ _ E) as [_ Hfresh].
  specialize (Hfresh Hsize). subst sizeId.
  destruct (render_phase_keeps _ _ _ _ _ _ _ E) as (_ & _ & _ & Hld & _).
  eapply commit_rerun; try eassumption.
  unfold deps_changed. rewrite Hld, Hd. apply negb_true_iff.
  destruct (same_deps d (deps_of p ratio (Fresh (nextId w)))) eqn:Hsame; [|reflexivity].
  apply same_deps_size in Hsame. simpl in Hsame.
  destruct (d_size d) as [n|n] eqn:Hn; [discriminate|].
  apply Nat.eqb_eq in Hsame. specialize (Hk d n Hd Hn). lia.
Qed.

Lemma default_size_recreates_surface_every_render_witness :
  exists sf, surfaces example_default_rerendered !! 1%nat = Some sf
             /\ sf_disposed sf = true /\ sf_attached sf = false.
Proof.
  assert (Hm : mount (defaultProps "void main() {}") example_dom
               = Some example_default_mounted) by (vm_compute; reflexivity).
  assert (Hc : commit (defaultProps "void main() {}") example_dom
                 example_default_mounted
               = Some example_default_rerendered) by (vm_compute; reflexivity).
  exact (proj1 (default_size_recreates_surface_every_render
                  (defaultProps "void main() {}") example_dom
                  example_default_mounted example_default_rerendered 1%nat
                  (reach_mount _ _ _ Hm) eq_refl Hc eq_refl)).
Defined.

(** *** What a render keeps *)

Lemma same_deps_refl d : same_deps d d = true.
Proof.
  unfold same_deps, Js.same_number.
  rewrite !String.eqb_refl, !Bool.eqb_reflx, Qeq_bool_refl.
  destruct (d_size d); simpl; now rewrite Nat.eqb_refl.
Qed.

Lemma same_pixelRatio_refl pr : same_pixelRatio pr pr = true.
Proof. destruct pr; simpl; auto. apply Qeq_bool_refl. Qed.

Lemma cleanup_clock r w :
  timeRef (cleanup r w) = timeRef w
  /\ lastTimestampRef (cleanup r w) = lastTimestampRef w
  /\ playbackSpeedRef (cleanup r w) = playbackSpeedRef w
  /\ isPlayingRef (cleanup r w) = isPlayingRef w
  /\ pixelRatioMemo (cleanup r w) = pixelRatioMemo w
  /\ containerRef (cleanup r w) = containerRef w.
Proof.
  unfold cleanup. destruct (rafIdRef w); simpl;
    match goal with |- context [surfaces ?x !! ?g] =>
      destruct (surfaces x !! g) end; auto 10.
Qed.

Lemma setup_clock p ratio mode dom w w' :
  setup p ratio mode dom w = Some w' ->
  timeRef w' = timeRef w
  /\ lastTimestampRef w' = lastTimestampRef w
  /\ playbackSpeedRef w' = playbackSpeedRef w
  /\ pixelRatioMemo w' = pixelRatioMemo w.
Proof.
  unfold setup, updateSize. destruct (containerRef w); simpl;
    [|intros [= <-]; auto].
  rewrite lookup_insert_eq. simpl.
  destruct (assign_vec2 "u_resolution" _ _) as [u|]; simpl; [|discriminate].
  intros [= <-].
  destruct (autoPlay p), (onResize p) as [cb|]; unfold render; simpl;
    rewrite ?lookup_insert_eq; simpl; auto.
Qed.

(** X19.  The clock survives every render and every resize: whether or
    not the setup effect runs again, [timeRef], the last-tick reference and
    the playback speed in use stay as they were.  In particular a new
    [playbackSpeed] or [initialTime] prop has no effect after mounting. *)
Theorem clock_survives_render_and_resize :
  (forall p dom w w',
      commit p dom w = Some w' ->
      timeRef w' = timeRef w
      /\ lastTimestampRef w' = lastTimestampRef w
      /\ playbackSpeedRef w' = playbackSpeedRef w)
  /\ (forall r dom w w',
      handleResize r dom w = Some w' ->
      timeRef w' = timeRef w
      /\ lastTimestampRef w' = lastTimestampRef w
      /\ playbackSpeedRef w' = playbackSpeedRef w).
Proof.
  split.
  - intros p dom w w'. unfold commit.
    destruct (render_phase p dom w) as [[[ratio sizeId] mode] w1] eqn:E.
    destruct (render_phase_spec _ _ _ _ _ _ _ E) as [_ Hw1].
    assert (H1 : timeRef w1 = timeRef w /\ lastTimestampRef w1 = lastTimestampRef w
                 /\ playbackSpeedRef w1 = playbackSpeedRef w)
      by (rewrite Hw1; auto).
    destruct H1 as (T1 & L1 & S1).
    destruct (deps_changed _ w1); [|intros [= <-]; auto].
    intros H. apply setup_clock in H. destruct H as (T & L & S & _).
    rewrite T, L, S.
    destruct (cleanupFn w1) as [r|]; [|auto].
    destruct (cleanup_clock r w1) as (T0 & L0 & S0 & _).
    change (timeRef (cleanup r w1) = timeRef w
            /\ lastTimestampRef (cleanup r w1) = lastTimestampRef w
            /\ playbackSpeedRef (cleanup r w1) = playbackSpeedRef w).
    rewrite T0, L0, S0. auto.
  - intros r dom w w'. unfold handleResize, updateSize.
    destruct (surfaces w !! run_surface r) as [sf|]; simpl; [|discriminate].
    destruct (assign_vec2 "u_resolution" _ _) as [u|]; simpl; [|discriminate].
    intros [= <-]. destruct (run_onResize r); simpl; auto.
Qed.

Lemma clock_survives_render_and_resize_witness :
  timeRef example_rerendered = timeRef example_mounted
  /\ lastTimestampRef example_rerendered = lastTimestampRef example_mounted
  /\ playbackSpeedRef example_rerendered = playbackSpeedRef example_mounted.
Proof.
  apply (proj1 clock_survives_render_and_resize example_props_no_pointer example_dom).
  vm_compute. reflexivity.
Defined.

(** X20.  Rendering a mounted component again with the props it was
    mounted with, and the same [size] object, changes nothing at all,
    whatever the container, the window or the device pixel ratio have
    become: the pixel ratio is memoised on the prop and no dependency of
    the setup effect differs. *)
Theorem same_props_render_changes_nothing p dom w n mode :
  mount p dom = Some w ->
  size p = Some (n, mode) ->
  forall dom', commit p dom' w = Some w.
Proof.
  intros Hm Hsize dom'.
  assert (Hw : lastDeps w
               = Some (deps_of p (actualPixelRatio (pixelRatio p) dom) (Caller n))
               /\ pixelRatioMemo w
                  = Some (pixelRatio p, actualPixelRatio (pixelRatio p) dom)).
  { revert Hm. unfold mount, commit, render_phase, useMemo_pixelRatio, size_of.
    simpl. rewrite Hsize. simpl. intros H.
    pose proof (setup_clock _ _ _ _ _ _ H) as (_ & _ & _ & Hmemo).
    apply setup_spec in H; [|reflexivity].
    destruct H as (_ & _ & _ & _ & _ & _ & _ & _ & _ & _ & _ & _ & Hld & _).
    split; assumption. }
  destruct Hw as [Hld Hmemo].
  unfold commit, render_phase, useMemo_pixelRatio, size_of.
  rewrite Hmemo, same_pixelRatio_refl, Hsize.
  unfold deps_changed. rewrite Hld, same_deps_refl. reflexivity.
Qed.

Lemma same_props_render_changes_nothing_witness :
  commit example_props (mkDom 0 0 1920 1080 3) example_mounted = Some example_mounted.
Proof.
  apply (same_props_render_changes_nothing example_props example_dom example_mounted
           7%nat Fill).
  - vm_compute. reflexivity.
  - reflexivity.
Defined.

(** X21.  A render that switches [autoPlay] off runs the setup effect
    again without touching [isPlayingRef]: the loop is cancelled and, if
    the component was Playing, it still counts as Playing, so [play()] does
    nothing until [pause()] has been called. *)
Theorem autoplay_off_render_stalls_playback p dom w w' d :
  reachable w ->
  lastDeps w = Some d ->
  d_autoPlay d = true ->
  autoPlay p = false ->
  commit p dom w = Some w' ->
  pendingFrames w' = []
  /\ isPlayingRef w' = isPlayingRef w
  /\ (isPlayingRef w = true -> forall cb, play cb w' = w')
  /\ (forall cb, pendingFrames (play cb (pause w')) <> []).
Proof.
  intros Hr Hd Hauto Hoff. pose proof (reachable_invariant w Hr) as [Hl Hs].
  destruct (reachable_tidy w Hr) as (Hp & _).
  unfold commit.
  destruct (render_phase p dom w) as [[[ratio sizeId] mode] w1] eqn:E.
  destruct (render_phase_keeps _ _ _ _ _ _ _ E)
    as (Hs1 & Hl1 & Hcl & Hld & Hsf & Htr & Hrd & Hco).
  pose proof (quiet_render_phase _ _ _ _ _ _ _ E) as (Qp & Qr & Qi & _).
  assert (Hp1 : one_pending w1) by (unfold one_pending; now rewrite Qp, Qr, Qi).
  assert (Hch : deps_changed (deps_of p ratio sizeId) w1 = true).
  { unfold deps_changed. rewrite Hld, Hd. apply negb_true_iff.
    destruct (same_deps d _) eqn:Hsame; [|reflexivity].
    unfold same_deps in Hsame. rewrite !andb_true_iff in Hsame.
    destruct Hsame as [_ Ha]. simpl in Ha. rewrite Hauto, Hoff in Ha. discriminate. }
  rewrite Hch.
  destruct (Hl1 Hl) as (r & sf & d0 & Hcr & _). rewrite Hcr. intros H.
  destruct (cleanup_fields r w1) as (Cp & _).
  destruct (cleanup_clock r w1) as (_ & _ & _ & Ci & _ & Cc).
  apply setup_fields in H;
    [|change (containerRef (cleanup r w1) = true); rewrite Cc; exact (proj1 (Hs1 Hs))].
  destruct H as (_ & _ & _ & Fa). rewrite Hoff in Fa.
  destruct Fa as (Fp & _ & Fi).
  change (pendingFrames w' = pendingFrames (cleanup r w1)) in Fp.
  change (isPlayingRef w' = isPlayingRef (cleanup r w1)) in Fi.
  rewrite Cp, (pending_cancelled w1 Hp1) in Fp. rewrite Ci, Qi in Fi.
  split; [exact Fp|]. split; [exact Fi|]. split.
  - intros Hplay cb. unfold play. now rewrite Fi, Hplay.
  - intros cb. unfold play, pause. simpl.
    destruct (rafIdRef w'); simpl; discriminate.
Qed.

Lemma autoplay_off_render_stalls_playback_witness :
  pendingFrames example_autoplay_off = []
  /\ isPlayingRef example_autoplay_off = true
  /\ play None example_autoplay_off = example_autoplay_off.
Proof.
  destruct (autoplay_off_render_stalls_playback
              example_props_paused example_dom example_mounted example_autoplay_off
              (default (deps_of example_props (1 # 1) (Caller 7)) (lastDeps example_mounted))
              example_mounted_reachable eq_refl eq_refl eq_refl eq_refl)
    as (Hp & Hi & Hplay & _).
  split; [exact Hp|]. split; [exact Hi|]. exact (Hplay eq_refl None).
Defined.

End Tidy.
